(** * mongoose-jobqueue: a visibility-window job queue on a document store

    Shallow embedding of [mongoose-jobqueue.js] and the properties of its
    job lifecycle.  A stored date is its time value in milliseconds since
    the epoch ([Z]); a [Date] object the engine builds is a time value or
    Invalid Date ([JS.date]).  JavaScript numbers are restricted to
    integers ([Z]), a promise is a function from the state of the world to
    a settled outcome and the next state.  A call runs from its first
    store access to its settlement without another call in between; what
    the store does in one [findOneAndUpdate] is one step. *)

From stdpp Require Import base numbers list strings sorting.

Set Warnings "-register-all".

Local Open Scope string_scope.
Local Open Scope list_scope.
Local Open Scope Z_scope.

(** ** JavaScript values *)

Module JS.

(** Payloads are [Schema.Types.Mixed]: any JavaScript value. *)
Inductive value :=
| undefined
| null
| boolean (b : bool)
| number (n : Z)
| str (s : string)
| array (items : list value)
| object (fields : list (string * value)).

(** ToBoolean: what [if (v)], [!v] and [v || d] test. *)
Definition truthy (v : value) : bool :=
  match v with
  | undefined | null => false
  | boolean b => b
  | number n => negb (n =? 0)
  | str s => negb (String.eqb s "")
  | array _ | object _ => true
  end.

(** [a || d] for an optional numeric argument [a] ([None] is an argument
    left out, or passed as [undefined] or [null]) and a number [d]. *)
Definition or_num (a : option Z) (d : Z) : Z :=
  match a with
  | Some n => if n =? 0 then d else n
  | None => d
  end.

(** [if (n)] on a number. *)
Definition nonzero (n : Z) : bool := negb (n =? 0).

(** [if (s)] on a string or [null]. *)
Definition truthy_str (s : option string) : bool :=
  match s with
  | Some s => negb (String.eqb s "")
  | None => false
  end.

(** A [Date] object: a time value in milliseconds since the epoch, or
    Invalid Date. *)
Inductive date :=
| at_ms (ms : Z)
| invalid_date.

(** The largest time value of a [Date], on either side of the epoch. *)
Definition max_time : Z := 8640000000000000.

(** [new Date(ms)]: a time value out of range gives Invalid Date. *)
Definition new_Date (ms : Z) : date :=
  if Z.abs ms <=? max_time then at_ms ms else invalid_date.

(** [if (d)] on a date or [undefined]: an object is truthy. *)
Definition truthy_date (d : option Z) : bool :=
  match d with
  | Some _ => true
  | None => false
  end.

(** [a <= n] and [a < n] for a number or date [a] that may be [undefined]:
    a comparison with [undefined] is false. *)
Definition le_num (a : option Z) (n : Z) : bool :=
  match a with
  | Some m => m <=? n
  | None => false
  end.

Definition lt_num (a : option Z) (n : Z) : bool :=
  match a with
  | Some m => m <? n
  | None => false
  end.

End JS.

(** ** The job record (the schema of [JobQueueHelper.buildModel]) *)

Module Job.

Record t := mk {
  _id : Z;                  (* store-assigned, orders the collection *)
  payload : JS.value;       (* Mixed, required *)
  visible : Z;              (* Date, default Date.now *)
  tries : Z;                (* Number, default 0 *)
  ack : option string;      (* String *)
  deleted : option Z;       (* Date *)
  progress : option Z       (* Number *)
}.

End Job.

(** ** Configuration *)

Module Options.

(** [this.options]: every key is present. *)
Record t := mk {
  delay : Z;
  visibility : Z;
  strictAck : bool;
  maxRetries : Z;
  deadQueue : option string;
  raw : bool;
  cosmosDb : bool
}.

(** The object literal of the constructor. *)
Definition defaults : t :=
  {| delay := 0;
     visibility := 30;
     strictAck := true;
     maxRetries := 5;
     deadQueue := None;
     raw := true;
     cosmosDb := false |}.

End Options.

Module Opts.

(** The [opts] argument of the constructor (JobQueueConfigurationObject):
    every key is optional, [None] is a key that is not there. *)
Record t := mk {
  delay : option Z;
  visibility : option Z;
  strictAck : option bool;
  maxRetries : option Z;
  deadQueue : option (option string);
  raw : option bool;
  cosmosDb : option bool
}.

Definition empty : t := mk None None None None None None None.

Definition of_options (o : Options.t) : t :=
  {| delay := Some (Options.delay o);
     visibility := Some (Options.visibility o);
     strictAck := Some (Options.strictAck o);
     maxRetries := Some (Options.maxRetries o);
     deadQueue := Some (Options.deadQueue o);
     raw := Some (Options.raw o);
     cosmosDb := Some (Options.cosmosDb o) |}.

(** One key of [{ ...a, ...b }]: the later object wins where it has it. *)
Definition later {A} (a b : option A) : option A :=
  match b with
  | Some v => Some v
  | None => a
  end.

(** Object spread [{ ...a, ...b }]. *)
Definition spread (a b : t) : t :=
  {| delay := later (delay a) (delay b);
     visibility := later (visibility a) (visibility b);
     strictAck := later (strictAck a) (strictAck b);
     maxRetries := later (maxRetries a) (maxRetries b);
     deadQueue := later (deadQueue a) (deadQueue b);
     raw := later (raw a) (raw b);
     cosmosDb := later (cosmosDb a) (cosmosDb b) |}.

End Opts.


(** ** The world: two collections, the clock and the random source *)

(** The injected time source and identifier generator: the value of the
    k-th read of the system clock, in milliseconds, and the hex string of
    the k-th draw of 16 random bytes. *)
Record Env := mkEnv {
  clock : nat → Z;
  randomBytes : nat → string
}.

(** The handles [buildModel] returns: the queue's collection and the dead
    queue's collection. *)
Inductive Model := QueueModel | DeadModel.

Record World := mkWorld {
  queueDocs : list Job.t;     (* the queue's collection, in natural order *)
  deadDocs : list Job.t;      (* the dead queue's collection *)
  ticks : nat;                (* clock reads so far *)
  draws : nat;                (* random draws so far *)
  nextId : Z                  (* the next identifier the store assigns *)
}.

Definition docs (m : Model) (w : World) : list Job.t :=
  match m with
  | QueueModel => queueDocs w
  | DeadModel => deadDocs w
  end.

Definition set_docs (m : Model) (l : list Job.t) (w : World) : World :=
  match m with
  | QueueModel => mkWorld l (deadDocs w) (ticks w) (draws w) (nextId w)
  | DeadModel => mkWorld (queueDocs w) l (ticks w) (draws w) (nextId w)
  end.

Definition tick (w : World) : World :=
  mkWorld (queueDocs w) (deadDocs w) (S (ticks w)) (draws w) (nextId w).

Definition draw (w : World) : World :=
  mkWorld (queueDocs w) (deadDocs w) (ticks w) (S (draws w)) (nextId w).

Definition bump (w : World) : World :=
  mkWorld (queueDocs w) (deadDocs w) (ticks w) (draws w) (nextId w + 1).

(** ** Promises *)

(** The errors of mongoose the engine can meet, by their kind: a value
    that cannot be cast to the type of its path, a document that fails
    validation, a model name that is registered already. *)
Inductive StoreError :=
| CastError
| ValidationError
| OverwriteModelError.

(** An error object: one with its name and its message, one that mongoose
    throws, or [new Error(cause)], whose message is the text of the error
    [cause]. *)
Inductive Error :=
| Err (name message : string)
| Thrown (e : StoreError)
| Wrapped (cause : Error).

(** [new Error(message)]. *)
Definition new_Error (message : string) : Error := Err "Error" message.

(** How a promise ends; [Pending] is a promise that never settles. *)
Inductive Settled (A : Type) :=
| Resolved (a : A)
| Rejected (e : Error)
| Pending.

Arguments Resolved {A} a.
Arguments Rejected {A} e.
Arguments Pending {A}.

Definition Promise (A : Type) : Type := World → Settled A * World.

Definition resolve {A} (a : A) : Promise A := λ w, (Resolved a, w).

Definition reject {A} (e : Error) : Promise A := λ w, (Rejected e, w).

Definition never {A} : Promise A := λ w, (Pending, w).

(** [p.then(k, reject)]: a rejection goes through unchanged. *)
Definition and_then {A B} (p : Promise A) (k : A → Promise B) : Promise B :=
  λ w, match p w with
       | (Resolved a, w') => k a w'
       | (Rejected e, w') => (Rejected e, w')
       | (Pending, w') => (Pending, w')
       end.

(** [p.then(k, (error) => reject(new Error(error)))]. *)
Definition and_then_wrap {A B} (p : Promise A) (k : A → Promise B) : Promise B :=
  λ w, match p w with
       | (Resolved a, w') => k a w'
       | (Rejected e, w') => (Rejected (Wrapped e), w')
       | (Pending, w') => (Pending, w')
       end.

Declare Scope promise_scope.
Delimit Scope promise_scope with promise.
Notation "'let*' x := p 'in' k" := (and_then p (λ x, k))
  (at level 10, x pattern, p at level 100, k at level 200) : promise_scope.
Local Open Scope promise_scope.

(** ** The store: what the engine uses of a mongoose model *)

Module Query.

Inductive Cmp := lte (d : Z) | gt (d : Z).      (* { $lte: d }, { $gt: d } *)
Inductive IsNull := is_null.                    (* deleted: null *)

(** A filter object; [None] is a key the filter does not have. *)
Record t := mk {
  ack : option (option string);
  deleted : option IsNull;
  visible : option Cmp
}.

Definition cmp (c : Cmp) (v : Z) : bool :=
  match c with
  | lte d => v <=? d
  | gt d => d <? v
  end.

Definition matches (q : t) (j : Job.t) : bool :=
  match ack q with
  | Some a => bool_decide (Job.ack j = a)
  | None => true
  end
  && match deleted q with
     | Some is_null => bool_decide (Job.deleted j = None)
     | None => true
     end
  && match visible q with
     | Some c => cmp c (Job.visible j)
     | None => true
     end.

End Query.

Module Update.

(** An update object: the keys of [$set] and of [$inc]. *)
Record t := mk {
  set_ack : option string;
  set_visible : option JS.date;
  set_deleted : option JS.date;
  set_progress : option Z;
  set_payload : option JS.value;
  inc_tries : option Z
}.

(** Whether the update can be cast to the schema: no date of it is
    Invalid Date. *)
Definition castable (u : t) : bool :=
  match set_visible u with
  | Some JS.invalid_date => false
  | _ => true
  end
  && match set_deleted u with
     | Some JS.invalid_date => false
     | _ => true
     end.

(** The document after the update, for an update that can be cast. *)
Definition apply (u : t) (j : Job.t) : Job.t :=
  {| Job._id := Job._id j;
     Job.payload := default (Job.payload j) (set_payload u);
     Job.visible := match set_visible u with
                    | Some (JS.at_ms v) => v
                    | _ => Job.visible j
                    end;
     Job.tries := match inc_tries u with Some n => Job.tries j + n | None => Job.tries j end;
     Job.ack := match set_ack u with Some a => Some a | None => Job.ack j end;
     Job.deleted := match set_deleted u with
                    | Some (JS.at_ms d) => Some d
                    | _ => Job.deleted j
                    end;
     Job.progress := match set_progress u with Some p => Some p | None => Job.progress j end |}.

End Update.

Module Find.

Inductive Sort := id_asc.                       (* sort: { _id: 1 } *)

Record options := mk {
  sort : option Sort;
  new : bool;
  lean : bool
}.

(** The first match in natural order: what an unsorted find returns. *)
Fixpoint first_match (p : Job.t → bool) (l : list Job.t) : option (nat * Job.t) :=
  match l with
  | [] => None
  | j :: l' =>
      if p j then Some (0%nat, j)
      else match first_match p l' with
           | Some (i, m) => Some (S i, m)
           | None => None
           end
  end.

(** The match with the least [_id], the earliest one among equals. *)
Fixpoint least_match (p : Job.t → bool) (l : list Job.t) : option (nat * Job.t) :=
  match l with
  | [] => None
  | j :: l' =>
      match least_match p l' with
      | Some (i, m) =>
          if p j && (Job._id j <=? Job._id m) then Some (0%nat, j) else Some (S i, m)
      | None => if p j then Some (0%nat, j) else None
      end
  end.

Definition select (s : option Sort) (p : Job.t → bool) (l : list Job.t)
  : option (nat * Job.t) :=
  match s with
  | Some id_asc => least_match p l
  | None => first_match p l
  end.

End Find.

Module Insert.

(** A document handed to [create]; [None] is a path left to its default. *)
Record t := mk {
  payload : JS.value;
  visible : option JS.date;
  tries : option Z
}.

(** [required: true] on a Mixed path. *)
Definition valid (i : t) : bool :=
  match payload i with
  | JS.undefined | JS.null => false
  | _ => true
  end.

(** Whether [visible] can be cast to a date. *)
Definition castable (i : t) : bool :=
  match visible i with
  | Some JS.invalid_date => false
  | _ => true
  end.

(** A document passes validation when its payload is there and its date
    is one. *)
Definition saves (i : t) : bool := valid i && castable i.

End Insert.

Section Store.

Context (env : Env).

(** [Model.findOneAndUpdate(query, update, options)]: the update is cast
    to the schema first, and an update that cannot be cast rejects before
    the store is asked; what the store then does is one atomic step. *)
Definition findOneAndUpdate (m : Model) (q : Query.t) (u : Update.t)
    (o : Find.options) : Promise (option Job.t) :=
  λ w, if Update.castable u
       then match Find.select (Find.sort o) (Query.matches q) (docs m w) with
            | Some (i, j) =>
                let j' := Update.apply u j in
                (Resolved (Some (if Find.new o then j' else j)),
                 set_docs m (<[i := j']> (docs m w)) w)
            | None => (Resolved None, w)
            end
       else (Rejected (Thrown CastError), w).

(** [Model.findOne(query, null, options)]. *)
Definition findOne (m : Model) (q : Query.t) (o : Find.options)
  : Promise (option Job.t) :=
  λ w, match Find.select (Find.sort o) (Query.matches q) (docs m w) with
       | Some (_, j) => (Resolved (Some j), w)
       | None => (Resolved None, w)
       end.

(** The documents of [create] that are saved.  Each document is built
    with the schema defaults ([visible] defaults to [Date.now], [tries] to
    0) and saved on its own: one that passes validation is stored, with
    the next identifier of the store, and one that fails is left out. *)
Fixpoint build (ins : list Insert.t) (w : World) : list Job.t * World :=
  match ins with
  | [] => ([], w)
  | i :: rest =>
      let '(visible, w1) := match Insert.visible i with
                            | Some d => (d, w)
                            | None => (JS.at_ms (clock env (ticks w)), tick w)
                            end in
      match visible with
      | JS.at_ms v =>
          if Insert.valid i
          then
            let j := {| Job._id := nextId w1;
                        Job.payload := Insert.payload i;
                        Job.visible := v;
                        Job.tries := default 0 (Insert.tries i);
                        Job.ack := None;
                        Job.deleted := None;
                        Job.progress := None |} in
            let '(js, w2) := build rest (bump w1) in
            (j :: js, w2)
          else build rest w1
      | JS.invalid_date => build rest w1
      end
  end.

(** The error of a document that fails validation. *)
Definition validation_error : Error := Thrown ValidationError.

(** [Model.create(docs)]: the documents are saved one by one; when one of
    them fails validation the call rejects, and the others are stored all
    the same. *)
Definition create (m : Model) (ins : list Insert.t) : Promise (list Job.t) :=
  λ w, let '(js, w') := build ins w in
       let stored := set_docs m (docs m w' ++ js) w' in
       if forallb Insert.saves ins
       then (Resolved js, stored)
       else (Rejected validation_error, stored).

End Store.

(** [Model.find(filter, null, options)]: every match, in the order the
    options ask for.  A filter is taken by its meaning, a predicate on
    the records. *)
Definition id_le (a b : Job.t) : Prop := Job._id a <= Job._id b.

#[global] Instance id_le_dec : RelDecision id_le := λ a b, decide (Job._id a <= Job._id b).

Definition find (m : Model) (p : Job.t → bool) (o : Find.options)
  : Promise (list Job.t) :=
  λ w, let found := filter (λ j, p j = true) (docs m w) in
       (Resolved match Find.sort o with
                 | Some Find.id_asc => merge_sort id_le found
                 | None => found
                 end, w).

Module Delete.

(** The filters the engine deletes by: none, [{ deleted: { $ne: null } }]
    and [{ deleted: { $lt: d } }]. *)
Inductive filter :=
| all
| deleted_ne_null
| deleted_lt (d : JS.date).

(** Whether the filter can be cast to the schema. *)
Definition castable (f : filter) : bool :=
  match f with
  | deleted_lt JS.invalid_date => false
  | _ => true
  end.

Definition matches (f : filter) (j : Job.t) : bool :=
  match f with
  | all => true
  | deleted_ne_null => bool_decide (Job.deleted j ≠ None)
  | deleted_lt (JS.at_ms d) => match Job.deleted j with
                               | Some t => t <? d
                               | None => false
                               end
  | deleted_lt JS.invalid_date => false
  end.

(** What [deleteMany] resolves with, as far as the engine looks at it:
    nothing, an object with the count at [n], or an object with the count
    at [result.n]. *)
Inductive result :=
| none
| flat (n : nat)
| nested (n : nat).

End Delete.

(** [Model.deleteMany(filter)]: a filter that cannot be cast rejects and
    removes nothing.  Which object the store hands back for a count is the
    store's business: [report] stands for it. *)
Definition deleteMany (report : nat → Delete.result) (m : Model)
    (f : Delete.filter) : Promise Delete.result :=
  λ w, if Delete.castable f
       then let gone := filter (λ j, Delete.matches f j = true) (docs m w) in
            let kept := filter (λ j, Delete.matches f j ≠ true) (docs m w) in
            (Resolved (report (length gone)), set_docs m kept w)
       else (Rejected (Thrown CastError), w).

(** ** JobQueueHelper *)

(** A mongoose instance, as far as the engine uses it: the names of the
    models registered on it. *)
Record Mongoose := mkMongoose {
  models : list string
}.

(** What a call resolves with: a plain object (a lean result, or the
    output of [toObject], of which the stored paths are kept) or a live
    mongoose document. *)
Inductive Doc :=
| Plain (j : Job.t)
| Document (j : Job.t).

Definition data (d : Doc) : Job.t :=
  match d with
  | Plain j => j
  | Document j => j
  end.

Inductive Result :=
| Null
| One (d : Doc)
| Many (ds : list Doc).

Module JobQueueHelper.

(** [mongoose.model(name, schema)], the last step of [buildModel]: a name
    that is registered on the instance already is refused, a new one is
    registered. *)
Definition buildModel (mongoose : Mongoose) (name : string) : StoreError + Mongoose :=
  if existsb (String.eqb name) (models mongoose)
  then inl OverwriteModelError
  else inr (mkMongoose (name :: models mongoose)).

(** What the getter of [inFlight] reads of its [this]; [None] is a
    property that is not there. *)
Record Receiver := mkReceiver {
  this_deleted : option Z;
  this_tries : option Z;
  this_visible : option Z
}.

(** The class [JobQueueHelper] as a receiver: it has none of the three. *)
Definition the_class : Receiver := mkReceiver None None None.

Section Helper.

Context (env : Env).

(** [crypto.randomBytes(16).toString('hex')]. *)
Definition id : Promise string :=
  λ w, (Resolved (randomBytes env (draws w)), draw w).

(** [new Date()]: the date of the clock, its time value. *)
Definition now : Promise Z :=
  λ w, (Resolved (clock env (ticks w)), tick w).

(** [new Date(Date.now() + secs * 1000)]. *)
Definition nowPlusSecs (secs : Z) : Promise JS.date :=
  λ w, (Resolved (JS.new_Date (clock env (ticks w) + secs * 1000)), tick w).

(** The getter of the virtual [inFlight].  It is an arrow function, so
    its [this] is the one of [buildModel]: [receiver] stands for it. *)
Definition inFlight (receiver : Receiver) : Promise bool :=
  if JS.truthy_date (this_deleted receiver) then resolve false
  else if JS.le_num (this_tries receiver) 0 then resolve false
  else let* now := now in
       if JS.lt_num (this_visible receiver) now then resolve false
       else resolve true.

(** [doc.toObject({ getters: true, versionKey: false })] where the method
    is there, which runs the getter of [inFlight], and [doc] where it is
    not. *)
Definition toObject (d : Doc) : Promise Doc :=
  match d with
  | Document j => let* inFlight := inFlight the_class in resolve (Plain j)
  | Plain j => resolve (Plain j)
  end.

(** The loop [for (const d of doc)] of [prep]. *)
Fixpoint toObjects (ds : list Doc) : Promise (list Doc) :=
  match ds with
  | [] => resolve []
  | d :: ds =>
      let* o := toObject d in
      let* os := toObjects ds in
      resolve (o :: os)
  end.

(** [prep(doc, raw)]; it returns at once, and is written as a step on the
    world because [toObject] reads the clock. *)
Definition prep (doc : Result) (raw : bool) : Promise Result :=
  if negb raw then resolve doc
  else match doc with
       | Null => resolve Null
       | One d => let* o := toObject d in resolve (One o)
       | Many ds => let* os := toObjects ds in resolve (Many os)
       end.

End Helper.

End JobQueueHelper.

(** ** JobQueue *)

Module JobQueue.

Import JobQueueHelper.

(** A queue object.  A model handle is held as its collection's name:
    [queue] works on [QueueModel], [deadQueue], when set, on [DeadModel].
    [mongoose] is the instance the queue was built on, with the models of
    the queue registered. *)
Record t := mk {
  options : Options.t;
  name : string;
  queue : string;
  deadQueue : option string;
  mongoose : Mongoose
}.

(** A mongoose instance on which no model is registered yet. *)
Definition mongoose_instance : Mongoose := mkMongoose [].

(** [new JobQueue(mongoose, name, opts)]; [inl] is a thrown error. *)
Definition constructor (mongoose : option Mongoose) (name : string)
    (opts : Opts.t) : Error + t :=
  match mongoose with
  | None => inl (new_Error "mongoose-jobqueue: provide a mongoose instance")
  | Some mongoose =>
      if String.eqb name "" then inl (new_Error "mongoose-jobqueue: provide a queue name")
      else
        let this_options := Options.defaults in
        (* the merged object is bound to the parameter and not read again *)
        let opts := Opts.spread opts (Opts.of_options this_options) in
        match buildModel mongoose name with
        | inl e => inl (Thrown e)
        | inr registered =>
            if JS.truthy_str (Options.deadQueue this_options)
            then match buildModel registered
                         (default "" (Options.deadQueue this_options)) with
                 | inl e => inl (Thrown e)
                 | inr registered' =>
                     inr {| options := this_options;
                            name := name;
                            queue := name;
                            deadQueue := Options.deadQueue this_options;
                            mongoose := registered' |}
                 end
            else inr {| options := this_options;
                        name := name;
                        queue := name;
                        deadQueue := None;
                        mongoose := registered |}
        end
  end.

Section Methods.

Context (env : Env).

Definition of_lean (job : option Job.t) : Result :=
  match job with
  | Some j => One (Plain j)
  | None => Null
  end.

(** [result[0]] of the array [create] resolves with. *)
Definition first (result : list Job.t) : Result :=
  match result with
  | j :: _ => One (Document j)
  | [] => Null
  end.

(** [add]; [create] resolves with an array here, never with [null], so
    the test [result === null] has no branch. *)
Definition add (this : t) (payload : JS.value) (delay : option Z) : Promise Result :=
  let delay := JS.or_num delay (Options.delay (options this)) in
  let* visible := (if JS.nonzero delay then nowPlusSecs env delay
                   else let* t := now env in resolve (JS.at_ms t)) in
  let inserts :=
    match payload with
    | JS.array items =>
        if (length items =? 0)%nat then None
        else Some ((λ p, Insert.mk p (Some visible) None) <$> items)
    | _ => Some [Insert.mk payload (Some visible) None]
    end in
  match inserts with
  | None => reject (new_Error "JobQueue.add(): Payload array length must be greater than 0.")
  | Some inserts =>
      and_then_wrap (create env QueueModel inserts) (λ result,
        if (1 <? length inserts)%nat
        then prep env (Many (Document <$> result)) (Options.raw (options this))
        else prep env (first result) (Options.raw (options this)))
  end.

(** The filter [ping] and [acknowledge] build: the token, not deleted and,
    under [strictAck], a visibility window that has not elapsed. *)
Definition lease_query (this : t) (ack : option string) : Promise Query.t :=
  if Options.strictAck (options this)
  then let* t := now env in
       resolve (Query.mk (Some ack) (Some Query.is_null) (Some (Query.gt t)))
  else resolve (Query.mk (Some ack) (Some Query.is_null) None).

Definition sorted_new_lean : Find.options :=
  {| Find.sort := Some Find.id_asc; Find.new := true; Find.lean := true |}.

Definition acknowledge (this : t) (ack : option string) : Promise Result :=
  let* query := lease_query this ack in
  let* d := now env in
  let update := Update.mk None None (Some (JS.at_ms d)) None None None in
  let options := sorted_new_lean in
  let* result := findOneAndUpdate QueueModel query update options in
  match result with
  | None => reject (new_Error "Job not found, or visibility window timed out.")
  | Some _ => prep env (of_lean result) (Options.raw (JobQueue.options this))
  end.

Definition ack (this : t) (ack : option string) : Promise Result :=
  acknowledge this ack.

(** The atomic step of [checkout]: the filter, the update and the
    [findOneAndUpdate] call, for a visibility already defaulted. *)
Definition claim (visibility : Z) : Promise (option Job.t) :=
  let* t := now env in
  let query := Query.mk None (Some Query.is_null) (Some (Query.lte t)) in
  let options := sorted_new_lean in
  let* a := id env in
  let* v := nowPlusSecs env visibility in
  let update := Update.mk (Some a) (Some v) None None None (Some 1) in
  findOneAndUpdate QueueModel query update options.

(** What [checkout] does with the claimed job, given the promise [again]
    of the recursive call [this.checkout(visibility)]. *)
Definition settle (this : t) (again : Promise Result) (job : option Job.t)
  : Promise Result :=
  match job with
  | None => resolve Null
  | Some job =>
      match deadQueue this with
      | None => prep env (One (Plain job)) (Options.raw (options this))
      | Some _ =>
          if Job.tries job <=? Options.maxRetries (options this)
          then prep env (One (Plain job)) (Options.raw (options this))
          else
            let* deadJob := create env DeadModel
                              [Insert.mk (Job.payload job) None (Some (Job.tries job))] in
            let* ackJob := ack this (Job.ack job) in
            let* job := again in
            prep env job (Options.raw (options this))
      end
  end.

(** [checkout], with the depth of its recursion bounded by [fuel]: at depth
    0 the promise of the recursive call stays pending. *)
Fixpoint checkout_fuel (fuel : nat) (this : t) (visibility : option Z)
  : Promise Result :=
  let visibility := JS.or_num visibility (Options.visibility (options this)) in
  let* job := claim visibility in
  settle this
    match fuel with
    | O => never
    | S fuel => checkout_fuel fuel this (Some visibility)
    end
    job.

(** [checkout]: every recursive call follows an acknowledgement, so the
    number of documents bounds the depth. *)
Definition checkout (this : t) (visibility : option Z) : Promise Result :=
  λ w, checkout_fuel (length (queueDocs w)) this visibility w.

Definition peek (this : t) : Promise Result :=
  let* t := now env in
  let query := Query.mk None (Some Query.is_null) (Some (Query.lte t)) in
  let options := {| Find.sort := Some Find.id_asc; Find.new := false; Find.lean := true |} in
  let* job := findOne QueueModel query options in
  prep env (of_lean job) (Options.raw (JobQueue.options this)).

Definition ping (this : t) (ack : option string) (visibility percent : option Z)
    (payload : JS.value) : Promise Result :=
  let percent := JS.or_num percent 0 in
  let visibility := JS.or_num visibility (Options.visibility (options this)) in
  let* query := lease_query this ack in
  let* v := nowPlusSecs env visibility in
  let update :=
    Update.mk None (Some v) None
      (if JS.nonzero percent then Some percent else None)
      (if JS.truthy payload then Some payload else None)
      None in
  let options := sorted_new_lean in
  let* result := findOneAndUpdate QueueModel query update options in
  prep env (of_lean result) (Options.raw (JobQueue.options this)).

End Methods.

Section Maintenance.

Context (env : Env) (report : nat → Delete.result).

(** [result.result.n] inside a [then] callback: reading [n] of a [result]
    that is not there throws, and the promise around the callback stays
    pending. *)
Definition result_n (r : Delete.result) : Promise nat :=
  match r with
  | Delete.nested n => resolve n
  | Delete.flat _ | Delete.none => never
  end.

Definition empty_result : Error := new_Error "MongoDB result was empty.".

(** [cleanup(age)]; [None] is an [age] that is not a number. *)
Definition cleanup (this : t) (age : option Z) : Promise nat :=
  let* query := match age with
                | Some age =>
                    let* d := nowPlusSecs env (age * -1) in
                    resolve (Delete.deleted_lt d)
                | None => resolve Delete.deleted_ne_null
                end in
  and_then_wrap (deleteMany report QueueModel query) (λ result,
    match result with
    | Delete.none => reject empty_result
    | _ => result_n result
    end).

Definition cleanupDead (this : t) : Promise nat :=
  match deadQueue this with
  | None => resolve 0%nat
  | Some _ =>
      and_then_wrap (deleteMany report DeadModel Delete.all) (λ result,
        match result with
        | Delete.none => reject empty_result
        | _ => result_n result
        end)
  end.

(** [get(filter)]; [None] is a [filter] that is not an object. *)
Definition get (this : t) (filter : option (Job.t → bool)) : Promise Result :=
  let filter := default (λ _, true) filter in
  let* foundJobs := find QueueModel filter
                      {| Find.sort := Some Find.id_asc; Find.new := false;
                         Find.lean := true |} in
  prep env (Many (Plain <$> foundJobs)) (Options.raw (options this)).

Definition reset (this : t) : Promise nat :=
  let* queueResult := deleteMany report QueueModel Delete.all in
  match queueResult with
  | Delete.none => reject empty_result
  | _ =>
      match deadQueue this with
      | None => result_n queueResult
      | Some _ =>
          let* deadQueueResult := deleteMany report DeadModel Delete.all in
          match deadQueueResult with
          | Delete.none => reject empty_result
          | _ =>
              let* n := result_n queueResult in
              let* m := result_n deadQueueResult in
              resolve (n + m)%nat
          end
      end
  end.

End Maintenance.

(** [module.exports]. *)
Definition exports (mongoose : option Mongoose) (name : string) (opts : Opts.t)
  : Error + t :=
  constructor mongoose name opts.

End JobQueue.

(** * Vocabulary of the properties *)

(** How many elements of [l] satisfy [P]. *)
Definition count {A} (P : A → Prop) `{!∀ x, Decision (P x)} (l : list A) : nat :=
  length (filter P l).

(** Eligible for checkout at time [now]. *)
Definition eligible (now : Z) (j : Job.t) : Prop :=
  Job.deleted j = None ∧ Job.visible j <= now.

(** Holds the lease [tok] at time [now]; the expiry counts under [strict]. *)
Definition leased (tok : option string) (strict : bool) (now : Z) (j : Job.t) : Prop :=
  Job.ack j = tok ∧ Job.deleted j = None ∧ (strict = true → now < Job.visible j).

(** The number of records that are not deleted. *)
Definition live (l : list Job.t) : nat := count (λ j, Job.deleted j = None) l.

(** The number of live records that carry the token [tok]. *)
Definition holders (tok : option string) (l : list Job.t) : nat :=
  count (λ j, Job.ack j = tok ∧ Job.deleted j = None) l.

(** The record a claim leaves behind. *)
Definition claimed (j : Job.t) (tok : string) (visible : Z) : Job.t :=
  {| Job._id := Job._id j;
     Job.payload := Job.payload j;
     Job.visible := visible;
     Job.tries := Job.tries j + 1;
     Job.ack := Some tok;
     Job.deleted := Job.deleted j;
     Job.progress := Job.progress j |}.

(** The record an acknowledgement leaves behind. *)
Definition acknowledged (j : Job.t) (t : Z) : Job.t :=
  {| Job._id := Job._id j;
     Job.payload := Job.payload j;
     Job.visible := Job.visible j;
     Job.tries := Job.tries j;
     Job.ack := Job.ack j;
     Job.deleted := Some t;
     Job.progress := Job.progress j |}.

Definition not_found : Error :=
  new_Error "Job not found, or visibility window timed out.".

Definition raw_of (this : JobQueue.t) : bool :=
  Options.raw (JobQueue.options this).

(** What [checkout] resolves with: nothing, or a plain record that is
    within the retry limit when a dead queue is set. *)
Definition served (this : JobQueue.t) (r : Result) : Prop :=
  r = Null ∨
  ∃ j, r = One (Plain j) ∧
       (is_Some (JobQueue.deadQueue this) →
        Job.tries j <= Options.maxRetries (JobQueue.options this)).

(** The document [checkout] hands to the dead queue's [create]. *)
Definition dead_insert (job : Job.t) : Insert.t :=
  Insert.mk (Job.payload job) None (Some (Job.tries job)).

(** The clock reads behind [w] once [ping] or [acknowledge] has built its
    filter. *)
Definition lease_ticks (this : JobQueue.t) (w : World) : nat :=
  if Options.strictAck (JobQueue.options this) then S (ticks w) else ticks w.

(** A time value that a [Date] can hold. *)
Definition dated (t : Z) : Prop := Z.abs t <= JS.max_time.

(** Every deleted record of [w] is, unchanged, at its place in [w']. *)
Definition keeps_deleted (w w' : World) : Prop :=
  ∀ m i j, docs m w !! i = Some j → is_Some (Job.deleted j) → docs m w' !! i = Some j.

Section Vocabulary.

Context (env : Env).

(** The filter of [checkout] and [peek] in the world [w]. *)
Definition checkout_query (w : World) : Query.t :=
  Query.mk None (Some Query.is_null) (Some (Query.lte (clock env (ticks w)))).

(** The filter of [ping] and [acknowledge] in the world [w]. *)
Definition lease_filter (this : JobQueue.t) (tok : option string) (w : World)
  : Query.t :=
  if Options.strictAck (JobQueue.options this)
  then Query.mk (Some tok) (Some Query.is_null) (Some (Query.gt (clock env (ticks w))))
  else Query.mk (Some tok) (Some Query.is_null) None.

(** The copy [create] stores in the dead queue. *)
Definition dead_copy (job : Job.t) (w : World) : Job.t :=
  {| Job._id := nextId w;
     Job.payload := Job.payload job;
     Job.visible := clock env (ticks w);
     Job.tries := Job.tries job;
     Job.ack := None;
     Job.deleted := None;
     Job.progress := None |}.

(** Steps (a) and (b) of the eviction: the copy, then the acknowledgement. *)
Definition evict (this : JobQueue.t) (job : Job.t) : Promise Result :=
  let* deadJob := create env DeadModel [dead_insert job] in
  JobQueue.ack env this (Job.ack job).

(** The date [checkout] gives the record it claims in the world [w]. *)
Definition checkout_lease (this : JobQueue.t) (visibility : option Z) (w : World) : Z :=
  clock env (S (ticks w))
  + JS.or_num visibility (Options.visibility (JobQueue.options this)) * 1000.

(** The date [ping] gives the record it finds in the world [w]. *)
Definition ping_lease (this : JobQueue.t) (visibility : option Z) (w : World) : Z :=
  clock env (lease_ticks this w)
  + JS.or_num visibility (Options.visibility (JobQueue.options this)) * 1000.

(** The update object [ping] builds. *)
Definition ping_update (this : JobQueue.t) (visibility percent : option Z)
    (payload : JS.value) (w : World) : Update.t :=
  Update.mk None (Some (JS.new_Date (ping_lease this visibility w))) None
    (if JS.nonzero (JS.or_num percent 0) then Some (JS.or_num percent 0) else None)
    (if JS.truthy payload then Some payload else None)
    None.

End Vocabulary.

(** ** Example queues and worlds *)

Module Ex.

(** A clock that advances one second per read, and three tokens. *)
Definition env : Env :=
  mkEnv (λ k, 1000 * Z.of_nat k)
        (λ k, match k with
              | O => "c8a3cc58"
              | S O => "5cbaaacf"
              | _ => "549d746d"
              end).

Definition plain : JobQueue.t :=
  JobQueue.mk Options.defaults "jobs" "jobs" None (mkMongoose ["jobs"]).

Definition with_dead : JobQueue.t :=
  JobQueue.mk Options.defaults "jobs" "jobs" (Some "dead-jobs")
    (mkMongoose ["dead-jobs"; "jobs"]).

Definition cosmos : JobQueue.t :=
  JobQueue.mk (Options.mk 0 30 true 5 None true true) "jobs" "jobs" None
    (mkMongoose ["jobs"]).

Definition one : Job.t := Job.mk 1 (JS.str "One") 5000 0 None None None.
Definition two : Job.t := Job.mk 2 (JS.str "Two") 5000 0 None None None.
Definition worn : Job.t := Job.mk 1 (JS.str "One") 5000 5 (Some "0b5e7d21") None None.
Definition held : Job.t := Job.mk 1 (JS.str "One") 37000 1 (Some "c8a3cc58") None (Some 50).
Definition finished : Job.t :=
  Job.mk 1 (JS.str "One") 37000 1 (Some "c8a3cc58") (Some 9000) None.


Definition empty : World := mkWorld [] [] 6 0 1.
Definition unordered : World := mkWorld [two; one] [] 6 0 3.
Definition worn_out : World := mkWorld [worn; two] [] 6 0 3.
Definition leased_out : World := mkWorld [held; two] [] 8 1 3.
Definition acked : World := mkWorld [finished; two] [] 10 1 3.

(** [worn_out] once [worn] is claimed, copied to the dead queue and
    acknowledged. *)
Definition claimed_worn : Job.t :=
  Job.mk 1 (JS.str "One") 37000 6 (Some "c8a3cc58") None None.
Definition dead_worn : Job.t := Job.mk 3 (JS.str "One") 8000 6 None None None.
Definition evicted : World :=
  mkWorld [Job.mk 1 (JS.str "One") 37000 6 (Some "c8a3cc58") (Some 10000) None; two]
    [dead_worn] 11 1 4.

(** Every recognized option, none at its default. *)
Definition all_set : Opts.t :=
  Opts.mk (Some 10) (Some 60) (Some false) (Some 2) (Some (Some "dead-jobs"))
    (Some false) (Some true).

End Ex.

(** ** Vocabulary of the further properties *)



(** The payloads of a call of [add]: the elements of a list, or the one
    payload. *)
Definition add_items (payload : JS.value) : list JS.value :=
  match payload with
  | JS.array items => items
  | _ => [payload]
  end.



Section FurtherVocabulary.

Context (env : Env).


(** The [Date] that [add] builds for [visible] in the world [w]. *)
Definition add_date (this : JobQueue.t) (delay : option Z) (w : World) : JS.date :=
  let d := JS.or_num delay (Options.delay (JobQueue.options this)) in
  if JS.nonzero d then JS.new_Date (clock env (ticks w) + d * 1000)
  else JS.at_ms (clock env (ticks w)).


End FurtherVocabulary.

(** Every record of [w] is at its place in [w'], changed by no more than
    [R] allows. *)
Definition evolves (R : Job.t → Job.t → Prop) (w w' : World) : Prop :=
  ∀ i j, queueDocs w !! i = Some j → ∃ j', queueDocs w' !! i = Some j' ∧ R j j'.

(** What checkout may do to a record: same [_id], payload and progress,
    [tries] not less. *)
Definition reclaimed (j j' : Job.t) : Prop :=
  Job._id j' = Job._id j ∧ Job.payload j' = Job.payload j ∧
  Job.progress j' = Job.progress j ∧ Job.tries j <= Job.tries j'.

(** What ping may do to a record: same [_id], [tries], token and
    [deleted]. *)
Definition relet (j j' : Job.t) : Prop :=
  Job._id j' = Job._id j ∧ Job.tries j' = Job.tries j ∧
  Job.ack j' = Job.ack j ∧ Job.deleted j' = Job.deleted j.

(** What acknowledge may do to a record: everything but [deleted] the
    same. *)
Definition struck_off (j j' : Job.t) : Prop :=
  Job._id j' = Job._id j ∧ Job.payload j' = Job.payload j ∧
  Job.visible j' = Job.visible j ∧ Job.tries j' = Job.tries j ∧
  Job.ack j' = Job.ack j ∧ Job.progress j' = Job.progress j.

(** The live records of the queue and the records of the dead queue. *)
Definition balance (w : World) : nat :=
  (live (queueDocs w) + length (deadDocs w))%nat.

(** The dead queue of [w'] is the one of [w] and, after it, records over
    the retry limit of [this] that carry no token and are not deleted. *)
Definition worn_copies (this : JobQueue.t) (w w' : World) : Prop :=
  ∃ extra, deadDocs w' = deadDocs w ++ extra ∧
           Forall (λ d, Options.maxRetries (JobQueue.options this) < Job.tries d ∧
                        Job.ack d = None ∧ Job.deleted d = None) extra.

(** A record that [cleanup] with the cut-off date [cutoff] keeps: one that
    is not deleted, or was deleted at [cutoff] or after. *)
Definition outlives (cutoff : Z) (j : Job.t) : Prop :=
  match Job.deleted j with
  | Some t => cutoff <= t
  | None => True
  end.

#[global] Instance outlives_dec cutoff j : Decision (outlives cutoff j) :=
  match Job.deleted j as o
        return Decision match o with Some t => cutoff <= t | None => True end with
  | Some t => decide (cutoff <= t)
  | None => left I
  end.

(** The store hands back the count at [result.n]. *)
Definition reports_nested (report : nat → Delete.result) : Prop :=
  ∀ n, report n = Delete.nested n.

(** The store hands back the count at [n], with no [result] around it. *)
Definition reports_flat (report : nat → Delete.result) : Prop :=
  ∀ n, report n = Delete.flat n.

(** ** Further example worlds *)

Module Scene.

(** [Ex.leased_out] forty seconds into the clock: the lease of [Ex.held]
    has elapsed. *)
Definition lapsed : World := mkWorld [Ex.held; Ex.two] [] 40 1 3.

(** [Ex.unordered] after one checkout. *)
Definition claimed_one : Job.t := claimed Ex.one "c8a3cc58" 37000.
Definition one_out : World := mkWorld [Ex.two; claimed_one] [] 8 1 3.

(** [Ex.unordered] after a peek. *)
Definition peeked : World := mkWorld [Ex.two; Ex.one] [] 7 0 3.

(** [Ex.worn_out] after a checkout with a dead queue: [Ex.worn] has gone
    to the dead queue and [Ex.two] is served. *)
Definition served_two : Job.t := claimed Ex.two "5cbaaacf" 42000.
Definition after_eviction : World :=
  mkWorld [acknowledged Ex.claimed_worn 10000; served_two] [Ex.dead_worn] 13 2 4.

(** A queue with nothing to serve: one record deleted, one leased out. *)
Definition quiet : World := mkWorld [Ex.finished; Ex.held] [] 10 1 3.

(** [Ex.leased_out] after a ping of [Ex.held] with a visibility of 0. *)
Definition pinged_held : Job.t :=
  Job.mk 1 (JS.str "One") 39000 1 (Some "c8a3cc58") None (Some 50).
Definition pinged : World := mkWorld [pinged_held; Ex.two] [] 10 1 3.



End Scene.

(** * Properties *)

(** ** Selection *)

Section Selection.

Context (p : Job.t → bool).

Lemma least_match_Some l i m :
  Find.least_match p l = Some (i, m) →
  l !! i = Some m ∧ p m = true ∧
  ∀ j, j ∈ l → p j = true → Job._id m <= Job._id j.
Proof.
  revert i m. induction l as [|x l IH]; intros i m; simpl; [done|].
  destruct (Find.least_match p l) as [[k b]|] eqn:E.
  - destruct (IH k b eq_refl) as (Hk & Hb & Hmin).
    destruct (p x) eqn:Hx; simpl.
    + destruct (Z.leb_spec (Job._id x) (Job._id b)); intros [= <- <-].
      * repeat split; [done|]. intros j [->|Hj]%elem_of_cons Hpj; [lia|].
        specialize (Hmin j Hj Hpj). lia.
      * repeat split; try done. intros j [->|Hj]%elem_of_cons Hpj; [lia|].
        by apply Hmin.
    + intros [= <- <-]. repeat split; try done.
      intros j [->|Hj]%elem_of_cons Hpj; [congruence|]. by apply Hmin.
  - destruct (p x) eqn:Hx; [|done]. intros [= <- <-].
    repeat split; try done.
    intros j [->|Hj]%elem_of_cons Hpj; [lia|].
    clear IH. exfalso. induction l as [|y l IHl]; [by apply elem_of_nil in Hj|].
    simpl in E. destruct (Find.least_match p l) as [[? ?]|].
    + by destruct (p y && _).
    + destruct (p y) eqn:Hy; [done|].
      apply elem_of_cons in Hj as [->|Hj]; [congruence|]. by apply IHl.
Qed.

Lemma least_match_None l :
  Find.least_match p l = None → ∀ j, j ∈ l → p j = false.
Proof.
  induction l as [|x l IH]; simpl; intros E j Hj; [by apply elem_of_nil in Hj|].
  destruct (Find.least_match p l) as [[? ?]|].
  - by destruct (p x && _).
  - destruct (p x) eqn:Hx; [done|].
    apply elem_of_cons in Hj as [->|Hj]; [done|]. by apply IH.
Qed.

Lemma least_match_is_Some l j :
  j ∈ l → p j = true → is_Some (Find.least_match p l).
Proof.
  intros Hj Hp. destruct (Find.least_match p l) as [r|] eqn:E; [by eexists|].
  rewrite (least_match_None l E j Hj) in Hp. done.
Qed.

End Selection.

(** ** Counting the documents that satisfy a predicate *)

Section Counting.

Context {A : Type} (P : A → Prop) `{!∀ x, Decision (P x)}.

Lemma count_insert_drop (l : list A) i x y :
  l !! i = Some x → P x → ¬ P y → S (count P (<[i:=y]> l)) = count P l.
Proof.
  unfold count. revert i. induction l as [|a l IH]; intros [|i]; simpl; try done.
  - intros [= ->] Hx Hy. rewrite filter_cons_False, filter_cons_True by done. done.
  - intros Hi Hx Hy. rewrite !filter_cons. destruct (decide (P a)); simpl; rewrite <-(IH i); done.
Qed.

Lemma count_insert_same (l : list A) i x y :
  l !! i = Some x → (P x ↔ P y) → count P (<[i:=y]> l) = count P l.
Proof.
  unfold count. revert i. induction l as [|a l IH]; intros [|i]; simpl; try done.
  - intros [= ->] Hxy. rewrite !filter_cons.
    destruct (decide (P y)), (decide (P x)); tauto || done.
  - intros Hi Hxy. rewrite !filter_cons. destruct (decide (P a)); simpl; rewrite (IH i); done.
Qed.

Lemma count_zero (l : list A) x : count P l = 0%nat → x ∈ l → ¬ P x.
Proof.
  unfold count. intros Hc Hx HP.
  assert (x ∈ filter P l) as Hin by (by apply list_elem_of_filter).
  destruct (filter P l); [by apply elem_of_nil in Hin|done].
Qed.

Lemma count_insert_add (l : list A) i x y :
  l !! i = Some x → ¬ P x → P y → count P (<[i:=y]> l) = S (count P l).
Proof.
  unfold count. revert i. induction l as [|a l IH]; intros [|i]; simpl; try done.
  - intros [= ->] Hx Hy. rewrite filter_cons_True, filter_cons_False by done. done.
  - intros Hi Hx Hy. rewrite !filter_cons. destruct (decide (P a)); simpl; rewrite (IH i); done.
Qed.

Lemma count_none (l : list A) : (∀ x, x ∈ l → ¬ P x) → count P l = 0%nat.
Proof.
  unfold count. induction l as [|a l IH]; intros Hno; [done|].
  rewrite filter_cons_False by (apply Hno; left).
  apply IH. intros x Hx. apply Hno. by right.
Qed.

Lemma count_le_length (l : list A) : (count P l ≤ length l)%nat.
Proof. apply length_filter. Qed.

End Counting.

(** ** The predicates of the engine's filters *)

Lemma matches_eligible now j :
  Query.matches (Query.mk None (Some Query.is_null) (Some (Query.lte now))) j = true
  ↔ eligible now j.
Proof.
  unfold Query.matches, eligible; simpl.
  rewrite andb_true_iff, bool_decide_eq_true, Z.leb_le. done.
Qed.

Lemma matches_leased_strict tok now j :
  Query.matches (Query.mk (Some tok) (Some Query.is_null) (Some (Query.gt now))) j = true
  ↔ leased tok true now j.
Proof.
  unfold Query.matches, leased; simpl.
  rewrite !andb_true_iff, !bool_decide_eq_true, Z.ltb_lt. tauto.
Qed.

Lemma matches_leased_lax tok now j :
  Query.matches (Query.mk (Some tok) (Some Query.is_null) None) j = true
  ↔ leased tok false now j.
Proof.
  unfold Query.matches, leased; simpl.
  rewrite !andb_true_iff, !bool_decide_eq_true.
  split; [intros [[? ?] _]|intros (? & ? & _)]; split_and!; done.
Qed.

Lemma prep_plain env j raw :
  JobQueueHelper.prep env (One (Plain j)) raw = resolve (One (Plain j)).
Proof. by destruct raw. Qed.

Lemma prep_null env raw : JobQueueHelper.prep env Null raw = resolve Null.
Proof. by destruct raw. Qed.

(** [toObject] on a document reads the clock once, for [inFlight]. *)
Lemma toObject_eq env d w :
  JobQueueHelper.toObject env d w
  = (Resolved (Plain (data d)),
     match d with
     | Document _ => tick w
     | Plain _ => w
     end).
Proof. by destruct d. Qed.

Lemma toObjects_eq env ds w :
  ∃ w', JobQueueHelper.toObjects env ds w = (Resolved (Plain ∘ data <$> ds), w') ∧
        queueDocs w' = queueDocs w ∧ deadDocs w' = deadDocs w ∧
        draws w' = draws w ∧ nextId w' = nextId w.
Proof.
  revert w. induction ds as [|d ds IH]; intros w; [by eexists|].
  cbn [JobQueueHelper.toObjects]. unfold and_then. rewrite toObject_eq.
  destruct (IH match d with Document _ => tick w | Plain _ => w end)
    as (w' & -> & Hq & Hd & Hr & Hn).
  exists w'. split; [done|]. by destruct d.
Qed.

(** [prep] returns, and touches nothing but the clock. *)
Lemma prep_resolves env r raw w :
  ∃ r' w', JobQueueHelper.prep env r raw w = (Resolved r', w') ∧
           queueDocs w' = queueDocs w ∧ deadDocs w' = deadDocs w ∧
           draws w' = draws w ∧ nextId w' = nextId w.
Proof.
  unfold JobQueueHelper.prep. destruct raw; simpl; [|by eexists _, _].
  destruct r as [|d|ds]; [by eexists _, _| |].
  - unfold and_then. rewrite toObject_eq. eexists _, _. split; [done|]. by destruct d.
  - unfold and_then. destruct (toObjects_eq env ds w) as (w' & -> & H).
    by eexists _, _.
Qed.

(** ** Dates *)

Lemma dated_dec t : dated t ∨ ¬ dated t.
Proof. unfold dated. lia. Qed.

Lemma new_Date_dated t : dated t → JS.new_Date t = JS.at_ms t.
Proof. unfold dated, JS.new_Date. intros H. apply Z.leb_le in H. by rewrite H. Qed.

Lemma new_Date_undated t : ¬ dated t → JS.new_Date t = JS.invalid_date.
Proof.
  unfold dated, JS.new_Date. intros H.
  destruct (Z.leb_spec (Z.abs t) JS.max_time); [done|done].
Qed.

Lemma new_Date_at_ms t v : JS.new_Date t = JS.at_ms v → v = t ∧ dated t.
Proof.
  unfold dated, JS.new_Date.
  destruct (Z.leb_spec (Z.abs t) JS.max_time); [|done]. by intros [= <-].
Qed.

(** ** Checkout: the atomic step *)

Section Checkout.

Context (env : Env).

Import JobQueue.

(** The claim when the date of the lease is one. *)
Lemma claim_eq vis w :
  dated (clock env (S (ticks w)) + vis * 1000) →
  claim env vis w =
  match Find.least_match (Query.matches (checkout_query env w)) (queueDocs w) with
  | Some (i, j) =>
      let job := claimed j (randomBytes env (draws w))
                   (clock env (S (ticks w)) + vis * 1000) in
      (Resolved (Some job),
       mkWorld (<[i:=job]> (queueDocs w)) (deadDocs w)
         (S (S (ticks w))) (S (draws w)) (nextId w))
  | None =>
      (Resolved None,
       mkWorld (queueDocs w) (deadDocs w) (S (S (ticks w))) (S (draws w)) (nextId w))
  end.
Proof.
  intros Hd. unfold claim, and_then, findOneAndUpdate, JobQueueHelper.nowPlusSecs; simpl.
  rewrite (new_Date_dated _ Hd); simpl.
  fold (checkout_query env w).
  destruct (Find.least_match _ _) as [[i j]|]; reflexivity.
Qed.

(** The claim when the date of the lease is none: the update is not cast,
    and the store is not asked. *)
Lemma claim_undated vis w :
  ¬ dated (clock env (S (ticks w)) + vis * 1000) →
  claim env vis w =
  (Rejected (Thrown CastError),
   mkWorld (queueDocs w) (deadDocs w) (S (S (ticks w))) (S (draws w)) (nextId w)).
Proof.
  intros Hd. unfold claim, and_then, findOneAndUpdate, JobQueueHelper.nowPlusSecs; simpl.
  by rewrite (new_Date_undated _ Hd).
Qed.

Lemma checkout_fuel_eq fuel this visibility :
  checkout_fuel env fuel this visibility =
  let vis := JS.or_num visibility (Options.visibility (options this)) in
  and_then (claim env vis)
    (settle env this
       match fuel with
       | O => never
       | S fuel => checkout_fuel env fuel this (Some vis)
       end).
Proof. by destruct fuel. Qed.

Lemma settle_direct this again job w :
  deadQueue this = None ∨ Job.tries job <= Options.maxRetries (options this) →
  settle env this again (Some job) w = (Resolved (One (Plain job)), w).
Proof.
  intros H. unfold settle. destruct (deadQueue this).
  - destruct H as [|H]; [done|]. apply Z.leb_le in H. rewrite H.
    by rewrite prep_plain.
  - by rewrite prep_plain.
Qed.

(** C2, for a visibility that gives a date: when some record is eligible,
    checkout claims, in one atomic step, the eligible record with the
    least [_id] and changes that record only: a new token from the
    generator, [visible] the clock plus the visibility in seconds, [tries]
    one more; unless the record goes to the dead queue, checkout resolves
    with the record as updated.  When the clock plus the visibility is
    beyond the dates there are, the update is refused: checkout rejects
    with the cast error of the store and changes no record. *)
Theorem checkout_claims_oldest_eligible this (visibility : option Z) (w : World) :
  (∃ j, j ∈ queueDocs w ∧ eligible (clock env (ticks w)) j) →
  let vis := JS.or_num visibility (Options.visibility (options this)) in
  (dated (clock env (S (ticks w)) + vis * 1000) →
   ∃ i j,
     queueDocs w !! i = Some j ∧ eligible (clock env (ticks w)) j ∧
     (∀ j', j' ∈ queueDocs w → eligible (clock env (ticks w)) j' →
            Job._id j <= Job._id j') ∧
     let job := {| Job._id := Job._id j;
                   Job.payload := Job.payload j;
                   Job.visible := clock env (S (ticks w)) + vis * 1000;
                   Job.tries := Job.tries j + 1;
                   Job.ack := Some (randomBytes env (draws w));
                   Job.deleted := None;
                   Job.progress := Job.progress j |} in
     let w' := mkWorld (<[i:=job]> (queueDocs w)) (deadDocs w)
                 (S (S (ticks w))) (S (draws w)) (nextId w) in
     claim env vis w = (Resolved (Some job), w') ∧
     (deadQueue this = None ∨ Job.tries job <= Options.maxRetries (options this) →
      checkout env this visibility w = (Resolved (One (Plain job)), w'))) ∧
  (¬ dated (clock env (S (ticks w)) + vis * 1000) →
   checkout env this visibility w
   = (Rejected (Thrown CastError),
      mkWorld (queueDocs w) (deadDocs w) (S (S (ticks w))) (S (draws w)) (nextId w))).
Proof.
  intros (j0 & Hin & Hel) vis. split; intros Hd.
  - destruct (least_match_is_Some (Query.matches (checkout_query env w)) _ j0 Hin)
      as [[i j] E]; [by apply matches_eligible|].
    destruct (least_match_Some _ _ _ _ E) as (Hi & Hj & Hmin).
    apply matches_eligible in Hj. exists i, j. split_and!; try done.
    + intros j' Hj' He'. apply Hmin; [done|]. by apply matches_eligible.
    + intros job w'.
      assert (claim env vis w = (Resolved (Some job), w')) as Hclaim.
      { rewrite claim_eq, E by done. unfold claimed. destruct Hj as [-> _]. done. }
      split; [done|]. intros Hdirect.
      unfold checkout. rewrite checkout_fuel_eq. unfold and_then; simpl.
      fold vis. rewrite Hclaim. by apply settle_direct.
  - unfold checkout. rewrite checkout_fuel_eq. unfold and_then; simpl.
    fold vis. by rewrite claim_undated.
Qed.

End Checkout.

(** The two cases of a claim: the date of the lease is one, or is none. *)
Ltac claim_cases env vis w :=
  let Hd := fresh "Hdated" in
  destruct (dated_dec (clock env (S (ticks w)) + vis * 1000)) as [Hd|Hd];
  [rewrite (claim_eq env vis w Hd)
  |rewrite (claim_undated env vis w Hd)].


(** ** Acknowledge *)

Section Acknowledge.

Context (env : Env).

Import JobQueue.

Lemma lease_query_eq this tok w :
  lease_query env this tok w =
  (Resolved (lease_filter env this tok w),
   mkWorld (queueDocs w) (deadDocs w) (lease_ticks this w) (draws w) (nextId w)).
Proof.
  unfold lease_query, lease_filter, lease_ticks.
  destruct (Options.strictAck (options this)); [done|]. by destruct w.
Qed.

Lemma matches_lease_filter this tok w j :
  Query.matches (lease_filter env this tok w) j = true
  ↔ leased tok (Options.strictAck (options this)) (clock env (ticks w)) j.
Proof.
  unfold lease_filter. destruct (Options.strictAck (options this)).
  - apply matches_leased_strict.
  - apply matches_leased_lax.
Qed.

Lemma acknowledge_eq this tok w :
  acknowledge env this tok w =
  let k := lease_ticks this w in
  match Find.least_match (Query.matches (lease_filter env this tok w)) (queueDocs w) with
  | Some (i, j) =>
      let j' := acknowledged j (clock env k) in
      (Resolved (One (Plain j')),
       mkWorld (<[i:=j']> (queueDocs w)) (deadDocs w) (S k) (draws w) (nextId w))
  | None =>
      (Rejected not_found,
       mkWorld (queueDocs w) (deadDocs w) (S k) (draws w) (nextId w))
  end.
Proof.
  unfold acknowledge, and_then. rewrite lease_query_eq.
  unfold findOneAndUpdate; simpl.
  destruct (Find.least_match _ _) as [[i j]|]; simpl; [|done].
  unfold resolve. by rewrite prep_plain.
Qed.

Lemma acknowledge_resolves this tok w r w' :
  acknowledge env this tok w = (Resolved r, w') →
  ∃ i j,
    queueDocs w !! i = Some j ∧
    leased tok (Options.strictAck (options this)) (clock env (ticks w)) j ∧
    r = One (Plain (acknowledged j (clock env (lease_ticks this w)))) ∧
    queueDocs w' = <[i:=acknowledged j (clock env (lease_ticks this w))]> (queueDocs w) ∧
    deadDocs w' = deadDocs w.
Proof.
  rewrite acknowledge_eq; simpl.
  destruct (Find.least_match _ _) as [[i j]|] eqn:E; [|done].
  intros [= <- <-]. apply least_match_Some in E as (Hi & Hj & _).
  apply matches_lease_filter in Hj. by exists i, j.
Qed.

Lemma acknowledge_rejects this tok w :
  (¬ ∃ j, j ∈ queueDocs w ∧
          leased tok (Options.strictAck (options this)) (clock env (ticks w)) j) →
  ∃ w', acknowledge env this tok w = (Rejected not_found, w') ∧
        queueDocs w' = queueDocs w ∧ deadDocs w' = deadDocs w ∧
        ticks w' = S (lease_ticks this w).
Proof.
  intros Hno. rewrite acknowledge_eq; simpl.
  destruct (Find.least_match _ _) as [[i j]|] eqn:E.
  - apply least_match_Some in E as (Hi & Hj & _).
    apply matches_lease_filter in Hj. destruct Hno. exists j. split; [|done].
    apply list_elem_of_lookup. by exists i.
  - by eexists.
Qed.

Lemma acknowledge_finds this tok w j :
  j ∈ queueDocs w →
  leased tok (Options.strictAck (options this)) (clock env (ticks w)) j →
  ∃ r w', acknowledge env this tok w = (Resolved r, w').
Proof.
  intros Hin Hj. rewrite acknowledge_eq; simpl.
  destruct (least_match_is_Some (Query.matches (lease_filter env this tok w)) _ j Hin)
    as [[i m] ->]; [by apply matches_lease_filter|].
  by eexists _, _.
Qed.

Lemma acknowledge_ticks this tok w r w' :
  acknowledge env this tok w = (r, w') → ticks w' = S (lease_ticks this w).
Proof.
  rewrite acknowledge_eq; simpl.
  destruct (Find.least_match _ _) as [[i j]|]; by intros [= <- <-].
Qed.


End Acknowledge.

(** ** Checkout: eviction to the dead queue and the recursion *)

Section Eviction.

Context (env : Env).

Import JobQueue.

Lemma create_dead_eq job w :
  create env DeadModel [dead_insert job] w =
  if Insert.valid (dead_insert job)
  then (Resolved [dead_copy env job w],
        mkWorld (queueDocs w) (deadDocs w ++ [dead_copy env job w])
          (S (ticks w)) (draws w) (nextId w + 1))
  else (Rejected validation_error, tick w).
Proof.
  assert (Insert.saves (dead_insert job) = Insert.valid (dead_insert job)) as Hs
    by apply andb_true_r.
  unfold create. cbn [build forallb Insert.visible dead_insert]. rewrite andb_true_r, Hs.
  destruct (Insert.valid (dead_insert job)); [done|].
  unfold tick; simpl. by rewrite app_nil_r.
Qed.

Lemma settle_direct_eq this again job w :
  job = None ∨ deadQueue this = None ∨
  (∃ j, job = Some j ∧ Job.tries j <= Options.maxRetries (options this)) →
  settle env this again job w = (Resolved (of_lean job), w).
Proof.
  intros [->|H]; [done|]. destruct job as [j|]; [|done].
  rewrite settle_direct; [done|].
  destruct H as [?|(? & [= <-] & ?)]; auto.
Qed.

Lemma settle_evict_eq this again j w :
  is_Some (deadQueue this) →
  Options.maxRetries (options this) < Job.tries j →
  settle env this again (Some j) w =
  and_then (evict env this j)
    (λ _, and_then again (λ r, JobQueueHelper.prep env r (raw_of this))) w.
Proof.
  intros [dq Hdq] Hgt. unfold settle. rewrite Hdq.
  apply Z.leb_gt in Hgt. rewrite Hgt.
  unfold evict, and_then, dead_insert.
  destruct (create _ _ _ _) as [[?| |] ?]; done.
Qed.

Lemma settle_case this (job : option Job.t) :
  (job = None ∨ deadQueue this = None ∨
   (∃ j, job = Some j ∧ Job.tries j <= Options.maxRetries (options this))) ∨
  (∃ j, job = Some j ∧ is_Some (deadQueue this) ∧
        Options.maxRetries (options this) < Job.tries j).
Proof.
  destruct job as [j|]; [|by left; left].
  destruct (deadQueue this) as [dq|]; [|by left; right; left].
  destruct (Z.le_gt_cases (Job.tries j) (Options.maxRetries (options this))).
  - left. right. right. by exists j.
  - right. exists j. split_and!; [done|by eexists|lia].
Qed.

(** The claim changes no record's [deleted]; it finds a record only where
    one is live. *)
Lemma claim_live vis w r w' :
  claim env vis w = (r, w') →
  length (queueDocs w') = length (queueDocs w) ∧
  live (queueDocs w') = live (queueDocs w) ∧
  (r = Resolved None ∨ r = Rejected (Thrown CastError) ∨
   ∃ job, r = Resolved (Some job) ∧ (1 ≤ live (queueDocs w))%nat).
Proof.
  claim_cases env vis w; [|intros [= <- <-]; split_and!; auto].
  destruct (Find.least_match _ _) as [[i j]|] eqn:E; simpl; intros [= <- <-]; simpl.
  - apply least_match_Some in E as (Hi & Hj & _).
    apply matches_eligible in Hj as [Hdel _].
    rewrite length_insert. split_and!; [done| |].
    + unfold live. by apply (count_insert_same _ _ i j).
    + right. right. eexists. split; [done|].
      unfold live. destruct (count _ (queueDocs w)) eqn:Hz; [|lia].
      destruct (count_zero _ _ j Hz); [|done]. apply list_elem_of_lookup. by exists i.
  - split_and!; auto.
Qed.

(** The eviction settles; where it resolves, one live record fewer. *)
Lemma evict_live this job w r w3 :
  evict env this job w = (r, w3) →
  r ≠ Pending ∧
  (∀ x, r = Resolved x →
     length (queueDocs w3) = length (queueDocs w) ∧
     S (live (queueDocs w3)) = live (queueDocs w)).
Proof.
  unfold evict, and_then, ack. rewrite create_dead_eq.
  destruct (Insert.valid _); [|by intros [= <- <-]].
  rewrite acknowledge_eq; simpl.
  destruct (Find.least_match _ _) as [[i j]|] eqn:E; intros [= <- <-]; [|done].
  split; [done|]. intros _ _; simpl.
  apply least_match_Some in E as (Hi & Hj & _).
  apply matches_lease_filter in Hj as (_ & Hdel & _).
  rewrite length_insert. split; [done|].
  unfold live. by apply (count_insert_drop _ _ i j).
Qed.

Lemma checkout_fuel_settles fuel this visibility w :
  (live (queueDocs w) ≤ fuel)%nat →
  (checkout_fuel env fuel this visibility w).1 ≠ Pending.
Proof.
  revert visibility w. induction fuel as [|fuel IH]; intros visibility w Hfuel;
    rewrite checkout_fuel_eq; unfold and_then; simpl;
    destruct (claim env _ w) as [r w'] eqn:Hc;
    apply claim_live in Hc as (Hlen & Hlive & [->|[->|(job & -> & H1)]]);
    try (by rewrite settle_direct_eq by auto); try done; try lia.
  destruct (settle_case this (Some job)) as [Hd|(j & [= <-] & Hdq & Hgt)];
    [by rewrite settle_direct_eq|].
  rewrite settle_evict_eq by done. unfold and_then.
  destruct (evict env this job w') as [r3 w3] eqn:He.
  apply evict_live in He as [Hp Hr]. destruct r3 as [x| |]; [|done..].
  destruct (Hr x eq_refl) as [_ Hdrop].
  specialize (IH (Some (JS.or_num visibility (Options.visibility (options this)))) w3).
  destruct (checkout_fuel env fuel this _ w3) as [[r4| |] w4]; simpl in *; [|done|].
  - by destruct (prep_resolves env r4 (raw_of this) w4) as (? & ? & -> & _).
  - apply IH. lia.
Qed.

Lemma checkout_fuel_more n m this visibility w :
  (n ≤ m)%nat →
  (checkout_fuel env n this visibility w).1 ≠ Pending →
  checkout_fuel env m this visibility w = checkout_fuel env n this visibility w.
Proof.
  revert m visibility w. induction n as [|n IH]; intros m visibility w Hnm;
    rewrite !(checkout_fuel_eq env _ this visibility); unfold and_then; simpl;
    destruct (claim env _ w) as [[job| |] w']; try done;
    (destruct (settle_case this job) as [Hd|(j & -> & Hdq & Hgt)];
      [by rewrite !settle_direct_eq|]);
    rewrite !settle_evict_eq by done; unfold and_then;
    destruct (evict env this j w') as [[x| |] w3]; try done.
  destruct m as [|m]; [lia|].
  intros Hset. rewrite (IH m); [done|lia|].
  by destruct (checkout_fuel env n this _ w3) as [[?| |] ?].
Qed.

(** [checkout] never stays pending. *)
Lemma checkout_settles this visibility w :
  (checkout env this visibility w).1 ≠ Pending.
Proof. apply checkout_fuel_settles, count_le_length. Qed.

(** [checkout] satisfies the recursive equation of the source. *)
Lemma checkout_eq this visibility w :
  checkout env this visibility w =
  let vis := JS.or_num visibility (Options.visibility (options this)) in
  and_then (claim env vis) (settle env this (checkout env this (Some vis))) w.
Proof.
  unfold checkout at 1. rewrite checkout_fuel_eq. unfold and_then; simpl.
  destruct (claim env _ w) as [r w'] eqn:Hc.
  apply claim_live in Hc as (Hlen & Hlive & [->|[->|(job & -> & H1)]]);
    [by rewrite !settle_direct_eq by auto|done|].
  destruct (settle_case this (Some job)) as [Hd|(j & [= <-] & Hdq & Hgt)];
    [by rewrite !settle_direct_eq|].
  rewrite !settle_evict_eq by done. unfold and_then.
  destruct (evict env this job w') as [r3 w3] eqn:He.
  apply evict_live in He as [_ Hr]. destruct r3 as [x| |]; [|done..].
  destruct (Hr x eq_refl) as [Hlen3 Hdrop].
  pose proof (count_le_length (λ j, Job.deleted j = None) (queueDocs w)) as Hle.
  fold (live (queueDocs w)) in Hle.
  destruct (length (queueDocs w)) as [|n] eqn:Hn; [lia|].
  unfold checkout. rewrite Hlen3, Hlen.
  rewrite (checkout_fuel_more n (S n)); [done|lia|].
  apply checkout_fuel_settles. lia.
Qed.


Lemma prep_served this r raw :
  served this r → JobQueueHelper.prep env r raw = resolve r.
Proof. intros [->|(j & -> & _)]; [apply prep_null|apply prep_plain]. Qed.

Lemma checkout_fuel_served fuel this visibility w r w' :
  checkout_fuel env fuel this visibility w = (Resolved r, w') → served this r.
Proof.
  revert visibility w r w'. induction fuel as [|fuel IH]; intros visibility w r w';
    rewrite checkout_fuel_eq; unfold and_then; simpl;
    destruct (claim env _ w) as [[job| |] w1]; try done;
    (destruct (settle_case this job) as [Hd|(j & -> & Hdq & Hgt)];
      [rewrite settle_direct_eq by done; intros [= <- <-];
       destruct job as [j|]; [right; exists j; split; [done|]|by left];
       intros [dq Hdq]; destruct Hd as [?|[?|(? & [= <-] & ?)]]; congruence || done|]);
    rewrite settle_evict_eq by done; unfold and_then;
    destruct (evict env this j w1) as [[x| |] w3]; try done.
  destruct (checkout_fuel env fuel this _ w3) as [[r0| |] w4] eqn:E; try done.
  apply IH in E. rewrite (prep_served this) by done. by intros [= <- <-].
Qed.


Lemma claim_resolves vis w job w1 :
  claim env vis w = (Resolved (Some job), w1) →
  ∃ i j,
    queueDocs w !! i = Some j ∧ eligible (clock env (ticks w)) j ∧
    job = claimed j (randomBytes env (draws w)) (clock env (S (ticks w)) + vis * 1000) ∧
    queueDocs w1 = <[i:=job]> (queueDocs w) ∧ deadDocs w1 = deadDocs w ∧
    ticks w1 = S (S (ticks w)) ∧
    dated (clock env (S (ticks w)) + vis * 1000).
Proof.
  claim_cases env vis w; [|done].
  destruct (Find.least_match _ _) as [[i j]|] eqn:E; simpl; intros [= <- <-]; simpl.
  apply least_match_Some in E as (Hi & Hj & _). apply matches_eligible in Hj.
  by exists i, j.
Qed.


(** X22: a claim with a token that no record carried leaves exactly one
    live record with that token: what the second half of C4 asks of the
    store. *)
Lemma fresh_token_has_one_holder vis w job w1 :
  claim env vis w = (Resolved (Some job), w1) →
  (∀ j, j ∈ queueDocs w → Job.ack j ≠ Job.ack job) →
  holders (Job.ack job) (queueDocs w1) = 1%nat.
Proof.
  intros Hclaim Hfresh.
  apply claim_resolves in Hclaim as (i & j & Hi & [Hlive _] & Hjob & Hq1 & _).
  unfold holders. rewrite Hq1.
  rewrite (count_insert_add _ _ i j); [|done| |].
  - rewrite count_none; [done|]. intros x Hx [Hack _]. by apply (Hfresh x).
  - intros [Hack _]. apply (Hfresh j); [|done]. apply list_elem_of_lookup. by exists i.
  - split; [done|]. by rewrite Hjob.
Qed.

End Eviction.

(** ** Ping *)

Section Ping.

Context (env : Env).

Import JobQueue.

(** What [ping] does, by the date of the new lease. *)
Lemma ping_cases this tok visibility percent payload w :
  ping env this tok visibility percent payload w =
  let u := ping_update env this visibility percent payload w in
  match JS.new_Date (ping_lease env this visibility w) with
  | JS.at_ms _ =>
      match Find.least_match (Query.matches (lease_filter env this tok w))
              (queueDocs w) with
      | Some (i, j) =>
          (Resolved (One (Plain (Update.apply u j))),
           mkWorld (<[i:=Update.apply u j]> (queueDocs w)) (deadDocs w)
             (S (lease_ticks this w)) (draws w) (nextId w))
      | None =>
          (Resolved Null,
           mkWorld (queueDocs w) (deadDocs w) (S (lease_ticks this w)) (draws w)
             (nextId w))
      end
  | JS.invalid_date =>
      (Rejected (Thrown CastError),
       mkWorld (queueDocs w) (deadDocs w) (S (lease_ticks this w)) (draws w) (nextId w))
  end.
Proof.
  unfold ping, and_then. rewrite lease_query_eq.
  unfold findOneAndUpdate, ping_update, JobQueueHelper.nowPlusSecs.
  cbn [ticks queueDocs deadDocs draws nextId docs set_docs tick
       Update.castable Update.set_visible Update.set_deleted Find.sort Find.new
       Find.select sorted_new_lean].
  fold (ping_lease env this visibility w).
  destruct (JS.new_Date (ping_lease env this visibility w)); [|done].
  destruct (Find.least_match _ _) as [[i j]|]; simpl;
    by destruct (Options.raw (options this)).
Qed.

(** The ping when the date of the new lease is one. *)
Lemma ping_eq this tok visibility percent payload w :
  dated (ping_lease env this visibility w) →
  ping env this tok visibility percent payload w =
  let u := ping_update env this visibility percent payload w in
  match Find.least_match (Query.matches (lease_filter env this tok w)) (queueDocs w) with
  | Some (i, j) =>
      (Resolved (One (Plain (Update.apply u j))),
       mkWorld (<[i:=Update.apply u j]> (queueDocs w)) (deadDocs w)
         (S (lease_ticks this w)) (draws w) (nextId w))
  | None =>
      (Resolved Null,
       mkWorld (queueDocs w) (deadDocs w) (S (lease_ticks this w)) (draws w) (nextId w))
  end.
Proof. intros Hd. by rewrite ping_cases, (new_Date_dated _ Hd). Qed.

(** The ping when the date of the new lease is none. *)
Lemma ping_undated this tok visibility percent payload w :
  ¬ dated (ping_lease env this visibility w) →
  ping env this tok visibility percent payload w =
  (Rejected (Thrown CastError),
   mkWorld (queueDocs w) (deadDocs w) (S (lease_ticks this w)) (draws w) (nextId w)).
Proof. intros Hd. by rewrite ping_cases, (new_Date_undated _ Hd). Qed.

Lemma ping_visible this visibility percent payload w j :
  dated (ping_lease env this visibility w) →
  Job.visible (Update.apply (ping_update env this visibility percent payload w) j)
  = ping_lease env this visibility w.
Proof.
  intros Hd. unfold Update.apply, ping_update; simpl. by rewrite (new_Date_dated _ Hd).
Qed.

Lemma ping_finds_nothing this tok visibility percent payload w :
  (¬ ∃ j, j ∈ queueDocs w ∧
          leased tok (Options.strictAck (options this)) (clock env (ticks w)) j) →
  dated (ping_lease env this visibility w) →
  ping env this tok visibility percent payload w
  = (Resolved Null,
     mkWorld (queueDocs w) (deadDocs w) (S (lease_ticks this w)) (draws w) (nextId w)).
Proof.
  intros Hno Hd. rewrite ping_eq by done; simpl.
  destruct (Find.least_match _ _) as [[i j]|] eqn:E; [|done].
  apply least_match_Some in E as (Hi & Hj & _).
  apply matches_lease_filter in Hj. destruct Hno. exists j. split; [|done].
  apply list_elem_of_lookup. by exists i.
Qed.

(** C5, as the code has it: a ping that no record answers to (token, not
    deleted and, under strictAck, visibility window not elapsed) resolves
    with null and changes no record, as long as the clock plus the
    visibility is a date; when it is beyond the dates there are, the ping
    rejects with the cast error of the store, and changes no record
    either. *)
Theorem ping_without_match_resolves_null this tok visibility percent payload w :
  (¬ ∃ j, j ∈ queueDocs w ∧
          leased tok (Options.strictAck (options this)) (clock env (ticks w)) j) →
  (dated (ping_lease env this visibility w) →
   ∃ w', ping env this tok visibility percent payload w = (Resolved Null, w') ∧
         queueDocs w' = queueDocs w ∧ deadDocs w' = deadDocs w) ∧
  (¬ dated (ping_lease env this visibility w) →
   ∃ w', ping env this tok visibility percent payload w
         = (Rejected (Thrown CastError), w') ∧
         queueDocs w' = queueDocs w ∧ deadDocs w' = deadDocs w).
Proof.
  intros Hno. split; intros Hd.
  - rewrite ping_finds_nothing by done. by eexists.
  - rewrite ping_undated by done. by eexists.
Qed.

(** What a ping that a record answers to does, for a visibility that
    gives a date: it resolves with that record as updated.  [visible] is
    the clock plus the visibility; a progress other than 0 is stored, a
    progress of 0 or none leaves the field as it was; the payload is
    replaced by a truthy new payload and kept otherwise; [_id], [tries],
    [ack] and [deleted] are unchanged. *)
Lemma ping_updates_lease this tok (visibility percent : option Z) payload w :
  (∃ j, j ∈ queueDocs w ∧
        leased tok (Options.strictAck (options this)) (clock env (ticks w)) j) →
  dated (ping_lease env this visibility w) →
  ∃ i j j' w',
    queueDocs w !! i = Some j ∧
    leased tok (Options.strictAck (options this)) (clock env (ticks w)) j ∧
    ping env this tok visibility percent payload w = (Resolved (One (Plain j')), w') ∧
    queueDocs w' = <[i:=j']> (queueDocs w) ∧ deadDocs w' = deadDocs w ∧
    Job.visible j' = clock env (lease_ticks this w)
                     + JS.or_num visibility (Options.visibility (options this)) * 1000 ∧
    (∀ p, percent = Some p → p ≠ 0 → Job.progress j' = Some p) ∧
    (percent = None ∨ percent = Some 0 → Job.progress j' = Job.progress j) ∧
    Job.payload j' = (if JS.truthy payload then payload else Job.payload j) ∧
    (payload = JS.undefined → Job.payload j' = Job.payload j) ∧
    Job._id j' = Job._id j ∧ Job.tries j' = Job.tries j ∧
    Job.ack j' = Job.ack j ∧ Job.deleted j' = Job.deleted j.
Proof.
  intros (j0 & Hin & Hj0) Hd.
  destruct (least_match_is_Some (Query.matches (lease_filter env this tok w)) _ j0 Hin)
    as [[i j] E]; [by apply matches_lease_filter|].
  destruct (least_match_Some _ _ _ _ E) as (Hi & Hj & _).
  apply matches_lease_filter in Hj.
  exists i, j. eexists _, _. rewrite ping_eq, E by done; cbv zeta.
  split_and!; try done.
  - by rewrite ping_visible.
  - intros p -> Hp. apply Z.eqb_neq in Hp.
    unfold ping_update, JS.or_num, JS.nonzero; simpl. rewrite Hp; simpl. by rewrite Hp.
  - by intros [->| ->].
  - unfold ping_update; simpl. by destruct (JS.truthy payload).
  - by intros ->.
Qed.

End Ping.

(** ** Deleted records are left alone *)

Section Deleted.

Context (env : Env).

Import JobQueue.

Lemma keeps_refl w : keeps_deleted w w.
Proof. by intros m i j. Qed.

Lemma keeps_trans w1 w2 w3 :
  keeps_deleted w1 w2 → keeps_deleted w2 w3 → keeps_deleted w1 w3.
Proof. intros H12 H23 m i j Hi Hd. apply H23; [|done]. by apply H12. Qed.

Lemma keeps_same w w' :
  queueDocs w' = queueDocs w → deadDocs w' = deadDocs w → keeps_deleted w w'.
Proof. intros Hq Hd [] i j; simpl; congruence. Qed.

Lemma keeps_app w w' l1 l2 :
  queueDocs w' = queueDocs w ++ l1 → deadDocs w' = deadDocs w ++ l2 →
  keeps_deleted w w'.
Proof.
  intros Hq Hd [] i j Hi _; simpl in *; [rewrite Hq|rewrite Hd];
    by apply lookup_app_l_Some.
Qed.

Lemma keeps_insert_live w w' k x y :
  queueDocs w !! k = Some x → Job.deleted x = None →
  queueDocs w' = <[k:=y]> (queueDocs w) → deadDocs w' = deadDocs w →
  keeps_deleted w w'.
Proof.
  intros Hk Hx Hq Hd [] i j Hi [t Ht]; simpl in *; [|congruence].
  rewrite Hq, list_lookup_insert_ne; [done|]. intros ->. congruence.
Qed.

Lemma claim_keeps vis w r w' : claim env vis w = (r, w') → keeps_deleted w w'.
Proof.
  claim_cases env vis w; [|intros [= <- <-]; by apply keeps_same].
  destruct (Find.least_match _ _) as [[k x]|] eqn:E; simpl; intros [= <- <-].
  - apply least_match_Some in E as (Hk & Hx & _).
    apply matches_eligible in Hx as [Hx _]. by eapply keeps_insert_live.
  - by apply keeps_same.
Qed.

Lemma acknowledge_keeps this tok w r w' :
  acknowledge env this tok w = (r, w') → keeps_deleted w w'.
Proof.
  rewrite acknowledge_eq; simpl.
  destruct (Find.least_match _ _) as [[k x]|] eqn:E; intros [= <- <-].
  - apply least_match_Some in E as (Hk & Hx & _).
    apply matches_lease_filter in Hx as (_ & Hx & _). by eapply keeps_insert_live.
  - by apply keeps_same.
Qed.

Lemma ping_keeps this tok visibility percent payload w r w' :
  ping env this tok visibility percent payload w = (r, w') → keeps_deleted w w'.
Proof.
  rewrite ping_cases; cbv zeta.
  destruct (JS.new_Date _); [|intros [= <- <-]; by apply keeps_same].
  destruct (Find.least_match _ _) as [[k x]|] eqn:E; intros [= <- <-].
  - apply least_match_Some in E as (Hk & Hx & _).
    apply matches_lease_filter in Hx as (_ & Hx & _). by eapply keeps_insert_live.
  - by apply keeps_same.
Qed.

Lemma peek_eq this w :
  peek env this w =
  match Find.least_match (Query.matches (checkout_query env w)) (queueDocs w) with
  | Some (_, j) => (Resolved (One (Plain j)), tick w)
  | None => (Resolved Null, tick w)
  end.
Proof.
  unfold peek, and_then, findOne; simpl. fold (checkout_query env w).
  destruct (Find.least_match _ _) as [[i j]|]; simpl.
  - by rewrite prep_plain.
  - by rewrite prep_null.
Qed.

Lemma peek_keeps this w r w' : peek env this w = (r, w') → keeps_deleted w w'.
Proof.
  rewrite peek_eq.
  destruct (Find.least_match _ _) as [[k x]|]; intros [= <- <-]; by apply keeps_same.
Qed.

Lemma build_docs ins w :
  queueDocs (build env ins w).2 = queueDocs w ∧
  deadDocs (build env ins w).2 = deadDocs w.
Proof.
  revert w. induction ins as [|i ins IH]; intros w; [done|]. cbn [build].
  destruct (Insert.visible i) as [[v|]|], (Insert.valid i);
    repeat match goal with
           | |- context [build env ins ?w0] =>
               let E := fresh "E" in
               pose proof (IH w0) as E;
               destruct (build env ins w0) as [js w2]
           end; done.
Qed.

(** [create] appends to its collection and leaves the other one. *)
Lemma create_appends m ins w r w' :
  create env m ins w = (r, w') →
  ∃ js, docs m w' = docs m w ++ js ∧
        match m with
        | QueueModel => deadDocs w' = deadDocs w
        | DeadModel => queueDocs w' = queueDocs w
        end.
Proof.
  unfold create. pose proof (build_docs ins w) as [Hq Hd].
  destruct (build env ins w) as [js w2]; simpl in *.
  destruct (forallb _ _); intros [= <- <-]; exists js; destruct m; simpl;
    (split; [congruence|done]).
Qed.

Lemma create_keeps m ins w r w' :
  create env m ins w = (r, w') → keeps_deleted w w'.
Proof.
  intros (js & Happ & Hother)%create_appends. destruct m; simpl in *.
  - apply (keeps_app _ _ js []); [done|by rewrite app_nil_r].
  - apply (keeps_app _ _ [] js); [by rewrite app_nil_r|done].
Qed.

Lemma add_eq this payload delay w :
  add env this payload delay w =
  let v := add_date env this delay w in
  let items := add_items payload in
  match items with
  | [] => (Rejected (new_Error "JobQueue.add(): Payload array length must be greater than 0."),
           tick w)
  | _ =>
      and_then_wrap
        (create env QueueModel ((λ p, Insert.mk p (Some v) None) <$> items))
        (λ result,
           if (1 <? length items)%nat
           then JobQueueHelper.prep env (Many (Document <$> result)) (raw_of this)
           else JobQueueHelper.prep env (first result) (raw_of this))
        (tick w)
  end.
Proof.
  unfold add, and_then, add_date, JobQueueHelper.nowPlusSecs, JobQueueHelper.now.
  cbv zeta.
  destruct (JS.nonzero _); cbn [resolve];
    destruct payload as [| | | | |[|p ps]|]; cbn [add_items length Nat.eqb]; try done;
    by rewrite length_fmap.
Qed.

(** [add] appends to the queue and leaves the dead queue. *)
Lemma add_appends this payload delay w r w' :
  add env this payload delay w = (r, w') →
  ∃ js, queueDocs w' = queueDocs w ++ js ∧ deadDocs w' = deadDocs w.
Proof.
  rewrite add_eq. cbv zeta.
  destruct (add_items payload) as [|q qs];
    [intros [= <- <-]; exists []; by rewrite app_nil_r|].
  unfold and_then_wrap.
  destruct (create env QueueModel _ (tick w)) as [r2 w2] eqn:E2.
  apply create_appends in E2 as (js & Hq & Hd). simpl in Hq, Hd.
  destruct r2 as [res|e|]; [|intros [= <- <-]; by exists js..].
  destruct (1 <? _)%nat;
    match goal with
    | |- JobQueueHelper.prep env ?x ?raw ?w0 = _ → _ =>
        destruct (prep_resolves env x raw w0) as (r' & w3 & -> & Hq3 & Hd3 & _)
    end; intros [= <- <-]; exists js; split; congruence.
Qed.

Lemma add_keeps this payload delay w r w' :
  add env this payload delay w = (r, w') → keeps_deleted w w'.
Proof.
  intros (js & Hq & Hd)%add_appends.
  apply (keeps_app _ _ js []); [done|by rewrite app_nil_r].
Qed.

Lemma checkout_fuel_keeps fuel this visibility w r w' :
  checkout_fuel env fuel this visibility w = (r, w') → keeps_deleted w w'.
Proof.
  revert visibility w r w'. induction fuel as [|fuel IH]; intros visibility w r w';
    rewrite checkout_fuel_eq; unfold and_then; simpl;
    destruct (claim env _ w) as [r1 w1] eqn:Hc; apply claim_keeps in Hc;
    (destruct r1 as [job| |]; [|by intros [= <- <-]..]);
    (destruct (settle_case this job) as [Hd|(j & -> & Hdq & Hgt)];
      [rewrite settle_direct_eq by done; by intros [= <- <-]|]);
    rewrite settle_evict_eq by done; unfold evict, and_then, ack;
    destruct (create env DeadModel _ w1) as [r2 w2] eqn:Hcr; apply create_keeps in Hcr;
    (destruct r2 as [x| |]; [|intros [= <- <-]; by eapply keeps_trans..]);
    destruct (acknowledge env this _ w2) as [r3 w3] eqn:Hack;
    apply acknowledge_keeps in Hack;
    assert (keeps_deleted w w3) as H3 by (eapply keeps_trans; [|done]; by eapply keeps_trans);
    (destruct r3 as [y| |]; [|by intros [= <- <-]..]).
  - by intros [= <- <-].
  - destruct (checkout_fuel env fuel this _ w3) as [r4 w4] eqn:E.
    pose proof E as E'. apply IH in E.
    assert (keeps_deleted w w4) by (by eapply keeps_trans).
    destruct r4 as [r4| |]; [|by intros [= <- <-]..].
    rewrite (prep_served env this) by (by eapply checkout_fuel_served).
    by intros [= <- <-].
Qed.

(** Every filter of an update asks for [deleted: null]. *)
Lemma update_filters_need_live this tok w j :
  (Query.matches (checkout_query env w) j = true → Job.deleted j = None) ∧
  (Query.matches (lease_filter env this tok w) j = true → Job.deleted j = None).
Proof.
  split.
  - by intros [? _]%matches_eligible.
  - by intros (_ & ? & _)%matches_lease_filter.
Qed.

(** C8: a record whose [deleted] is set stays at its place, with every
    field as it was, through add, checkout, peek, ping and acknowledge; the
    filters of the updates of checkout, ping and acknowledge match live
    records only. *)
Theorem deleted_records_untouched this (w : World) m i j d :
  docs m w !! i = Some j → Job.deleted j = Some d →
  (∀ payload delay r w', add env this payload delay w = (r, w') →
                         docs m w' !! i = Some j) ∧
  (∀ visibility r w', checkout env this visibility w = (r, w') →
                      docs m w' !! i = Some j) ∧
  (∀ r w', peek env this w = (r, w') → docs m w' !! i = Some j) ∧
  (∀ tok visibility percent payload r w',
     ping env this tok visibility percent payload w = (r, w') →
     docs m w' !! i = Some j) ∧
  (∀ tok r w', acknowledge env this tok w = (r, w') → docs m w' !! i = Some j) ∧
  (∀ tok j',
     Query.matches (checkout_query env w) j' = true ∨
     Query.matches (lease_filter env this tok w) j' = true →
     Job.deleted j' = None).
Proof.
  intros Hi Hd. assert (is_Some (Job.deleted j)) as Hs by (by eexists).
  split_and!;
    [| | | | |intros tok j';
              destruct (update_filters_need_live this tok w j') as [H1 H2];
              intros [H|H]; auto].
  - intros payload delay r w' H. by apply (add_keeps _ _ _ _ _ _ H).
  - intros visibility r w' H. by apply (checkout_fuel_keeps _ _ _ _ _ _ H).
  - intros r w' H. by apply (peek_keeps _ _ _ _ H).
  - intros tok visibility percent payload r w' H. by apply (ping_keeps _ _ _ _ _ _ _ _ H).
  - intros tok r w' H. by apply (acknowledge_keeps _ _ _ _ _ H).
Qed.

End Deleted.

(** ** Arguments and options *)

Section Arguments.

Context (env : Env).

Import JobQueue.

Lemma or_num_idem a d : JS.or_num (Some (JS.or_num a d)) d = JS.or_num a d.
Proof.
  unfold JS.or_num. destruct a as [n|].
  - destruct (n =? 0) eqn:Hn; [by destruct (d =? 0)|by rewrite Hn].
  - by destruct (d =? 0).
Qed.

Lemma evict_ticks this job w r w3 :
  evict env this job w = (r, w3) → (ticks w ≤ ticks w3)%nat.
Proof.
  unfold evict, and_then, ack. rewrite create_dead_eq.
  destruct (Insert.valid _); [|intros [= <- <-]; simpl; lia].
  destruct (acknowledge env this _ _) as [r2 w2] eqn:Hack.
  apply acknowledge_ticks in Hack. unfold lease_ticks in Hack. simpl in Hack.
  destruct r2; intros [= <- <-]; destruct (Options.strictAck _); lia.
Qed.

(** The record checkout serves carries the lease of the call: the clock,
    as read for the claim that served it, plus the visibility in effect. *)
Lemma checkout_fuel_lease fuel this visibility w job w' :
  checkout_fuel env fuel this visibility w = (Resolved (One (Plain job)), w') →
  ∃ k, (ticks w < k < ticks w')%nat ∧
       Job.visible job
       = clock env k + JS.or_num visibility (Options.visibility (options this)) * 1000 ∧
       (deadQueue this = None → k = S (ticks w)).
Proof.
  revert visibility w. induction fuel as [|fuel IH]; intros visibility w;
    rewrite checkout_fuel_eq; unfold and_then; cbv zeta;
    destruct (claim env _ w) as [[j1| |] w1] eqn:Hc; try done;
    (destruct (settle_case this j1) as [Hd|(j & -> & Hdq & Hgt)];
      [rewrite settle_direct_eq by done; destruct j1 as [j|]; [|done]; simpl;
       intros [= <- <-];
       apply claim_resolves in Hc as (i & j0 & _ & _ & -> & _ & _ & Ht & _);
       exists (S (ticks w)); split; [lia|done]|]);
    rewrite settle_evict_eq by done; unfold and_then;
    destruct (evict env this j w1) as [[y| |] w3] eqn:He; try done.
  destruct (checkout_fuel env fuel this _ w3) as [[r4| |] w4] eqn:E4; try done.
  rewrite (prep_served env this) by (by eapply checkout_fuel_served).
  intros [= -> <-]. apply IH in E4 as (k & Hk & Hv & _).
  apply claim_resolves in Hc as (_ & _ & _ & _ & _ & _ & _ & Ht & _).
  apply evict_ticks in He. exists k. split; [lia|]. split.
  - by rewrite Hv, or_num_idem.
  - intros Hnone. destruct Hdq as [dq Hdq]. congruence.
Qed.

(** The record ping resolves with carries the lease of the call. *)
Lemma ping_lease_given this tok visibility percent payload w j' w' :
  ping env this tok visibility percent payload w = (Resolved (One (Plain j')), w') →
  Job.visible j' = ping_lease env this visibility w.
Proof.
  rewrite ping_cases; cbv zeta.
  destruct (JS.new_Date _) as [v|] eqn:Hv; [|done].
  apply new_Date_at_ms in Hv as [_ Hd].
  destruct (Find.least_match _ _) as [[i j]|]; [|done].
  intros [= <- <-]. by apply ping_visible.
Qed.

(** C10: a visibility argument of 0 is taken as no argument.  checkout
    and ping with 0 are the calls without the argument, and the lease
    they give a record is the clock plus the visibility of the queue's
    options, whatever the record: the record that checkout serves has as
    [visible] the clock, as read for the claim that served it (the second
    read of the call, when no dead queue is set), plus that visibility in
    seconds, and so has the record that ping resolves with. *)
Theorem zero_visibility_means_default this w :
  let d := Options.visibility (options this) in
  JS.or_num (Some 0) d = d ∧
  checkout env this (Some 0) w = checkout env this None w ∧
  (∀ tok percent payload,
     ping env this tok (Some 0) percent payload w
     = ping env this tok None percent payload w) ∧
  (∀ job w', checkout env this (Some 0) w = (Resolved (One (Plain job)), w') →
     ∃ k, (ticks w < k < ticks w')%nat ∧
          Job.visible job = clock env k + d * 1000 ∧
          (deadQueue this = None → k = S (ticks w))) ∧
  (∀ tok percent payload j' w',
     ping env this tok (Some 0) percent payload w = (Resolved (One (Plain j')), w') →
     Job.visible j' = clock env (lease_ticks this w) + d * 1000).
Proof.
  intros d. split_and!; [done| |done| |].
  - unfold checkout. by rewrite !checkout_fuel_eq.
  - intros job w' H. by apply checkout_fuel_lease in H.
  - intros tok percent payload j' w' H. by apply ping_lease_given in H.
Qed.

End Arguments.

(** The constructor leaves [this.options] at the defaults, whatever [opts]
    holds, and sets up no dead queue. *)
Lemma constructor_options m name opts q :
  JobQueue.constructor m name opts = inr q →
  JobQueue.options q = Options.defaults ∧ JobQueue.deadQueue q = None.
Proof.
  unfold JobQueue.constructor. destruct m as [mg|]; [|done].
  destruct (String.eqb name ""); [done|]. cbv zeta.
  destruct (JobQueueHelper.buildModel mg name); [done|]. simpl. by intros [= <-].
Qed.

(** In the object the constructor merges, the defaults come last and win. *)
Lemma spread_defaults_win opts :
  Opts.spread opts (Opts.of_options Options.defaults)
  = Opts.of_options Options.defaults.
Proof. by destruct opts. Qed.

(** ** The options a queue is built with *)

(** C1, at a queue built with every option set: the constructor returns a
    queue whose options are the defaults, so the visibility asked for (60)
    is not the one in effect (30), and no dead queue is set up. *)
Theorem constructor_drops_supplied_options :
  ∃ q, JobQueue.constructor (Some JobQueue.mongoose_instance) "jobs" Ex.all_set = inr q ∧
       Opts.visibility Ex.all_set = Some 60 ∧
       Options.visibility (JobQueue.options q) = 30 ∧
       JobQueue.options q = Options.defaults ∧
       Opts.deadQueue Ex.all_set = Some (Some "dead-jobs") ∧
       JobQueue.deadQueue q = None.
Proof. by eexists. Qed.

(** The option [cosmosDb] is read nowhere: two queues that differ in it
    alone check out alike. *)
Lemma cosmosDb_is_inert env d v s m dq r c c' name qn dead mg visibility w :
  JobQueue.checkout env
    (JobQueue.mk (Options.mk d v s m dq r c) name qn dead mg) visibility w
  = JobQueue.checkout env
      (JobQueue.mk (Options.mk d v s m dq r c') name qn dead mg) visibility w.
Proof.
  unfold JobQueue.checkout. generalize (length (queueDocs w)) as fuel.
  intros fuel. revert visibility w.
  induction fuel as [|fuel IH]; intros visibility w;
    rewrite !checkout_fuel_eq; unfold and_then; simpl;
    destruct (JobQueue.claim env _ w) as [[[job|]| |] w1]; try done;
    unfold JobQueue.settle; simpl; destruct dead; try done;
    destruct (Job.tries job <=? m); try done; unfold and_then;
    destruct (create env DeadModel _ w1) as [[x| |] w2]; try done;
    unfold JobQueue.ack, JobQueue.acknowledge, JobQueue.lease_query, and_then; simpl;
    destruct s; simpl;
    destruct (findOneAndUpdate _ _ _ _ _) as [[[y|]| |] w3]; try done;
    destruct r; simpl; by rewrite IH.
Qed.

(** C9, at a queue in cosmosDb mode over a collection whose natural order
    is not the order of [_id]: checkout serves the record with the least
    [_id], where an unsorted find would take the first in natural order;
    the queue the constructor builds from [cosmosDb: true] does the same. *)
Theorem cosmosDb_mode_still_sorts :
  Options.cosmosDb (JobQueue.options Ex.cosmos) = true ∧
  Find.sort JobQueue.sorted_new_lean = Some Find.id_asc ∧
  (∃ j w', JobQueue.checkout Ex.env Ex.cosmos None Ex.unordered
           = (Resolved (One (Plain j)), w') ∧ Job._id j = 1) ∧
  (∃ j, Find.select None (Query.matches (checkout_query Ex.env Ex.unordered))
          (queueDocs Ex.unordered) = Some (0%nat, j) ∧ Job._id j = 2) ∧
  (∃ q j w',
     JobQueue.constructor (Some JobQueue.mongoose_instance) "jobs" Ex.all_set = inr q ∧
     Opts.cosmosDb Ex.all_set = Some true ∧
     JobQueue.checkout Ex.env q None Ex.unordered = (Resolved (One (Plain j)), w') ∧
     Job._id j = 1).
Proof.
  split_and!; [done|done| | |].
  - eexists _, _. split; [vm_compute; reflexivity|reflexivity].
  - eexists. split; [vm_compute; reflexivity|reflexivity].
  - eexists _, _, _. split_and!; [reflexivity|reflexivity|vm_compute; reflexivity|reflexivity].
Qed.

(** ** Add *)

(** C6, at a list of one payload: add resolves with the created record
    itself, not with a list holding it. *)
Theorem add_singleton_list_resolves_with_record :
  ∃ j w', JobQueue.add Ex.env Ex.plain (JS.array [JS.str "One"]) None Ex.empty
          = (Resolved (One (Plain j)), w') ∧
          queueDocs w' = [j] ∧ Job._id j = 1 ∧ Job.payload j = JS.str "One".
Proof. eexists _, _. split_and!; [vm_compute; reflexivity|reflexivity..]. Qed.

(** A list of two payloads resolves with the list of the two records, in
    order, and a payload that is no list with the one record. *)
Example add_two_and_add_one :
  (∃ j1 j2 w', JobQueue.add Ex.env Ex.plain (JS.array [JS.str "One"; JS.str "Two"])
                 None Ex.empty
               = (Resolved (Many [Plain j1; Plain j2]), w') ∧
               queueDocs w' = [j1; j2] ∧
               Job.payload j1 = JS.str "One" ∧ Job.payload j2 = JS.str "Two" ∧
               Job._id j1 < Job._id j2) ∧
  (∃ j w', JobQueue.add Ex.env Ex.plain (JS.str "One") None Ex.empty
           = (Resolved (One (Plain j)), w') ∧ queueDocs w' = [j]).
Proof.
  split.
  - eexists _, _, _. split_and!; [vm_compute; reflexivity|reflexivity..].
  - eexists _, _. split; [vm_compute; reflexivity|reflexivity].
Qed.

(** ** The theorems at work on the example worlds *)

Lemma checkout_claims_oldest_eligible_witness :
  (∃ j, j ∈ queueDocs Ex.unordered ∧ eligible (clock Ex.env (ticks Ex.unordered)) j) ∧
  dated (clock Ex.env (S (ticks Ex.unordered)) + 30 * 1000) ∧
  ∃ i j, queueDocs Ex.unordered !! i = Some j ∧
         (∀ j', j' ∈ queueDocs Ex.unordered →
                eligible (clock Ex.env (ticks Ex.unordered)) j' →
                Job._id j <= Job._id j') ∧
         JobQueue.checkout Ex.env Ex.plain None Ex.unordered
         = (Resolved (One (Plain (claimed j "c8a3cc58" 37000))),
            mkWorld (<[i:=claimed j "c8a3cc58" 37000]> (queueDocs Ex.unordered)) [] 8 1 3).
Proof.
  assert (∃ j, j ∈ queueDocs Ex.unordered ∧
               eligible (clock Ex.env (ticks Ex.unordered)) j) as Hyp.
  { exists Ex.one. split.
    - apply list_elem_of_lookup. by exists 1%nat.
    - split; [reflexivity|]. vm_compute. discriminate. }
  assert (dated (clock Ex.env (S (ticks Ex.unordered)) + 30 * 1000)) as Hd
    by (vm_compute; discriminate).
  split; [exact Hyp|]. split; [exact Hd|].
  destruct (proj1 (checkout_claims_oldest_eligible Ex.env Ex.plain None Ex.unordered Hyp)
              Hd)
    as (i & j & Hi & [Hlive _] & Hmin & _ & Hout).
  exists i, j. split_and!; [exact Hi|exact Hmin|].
  unfold claimed. rewrite Hlive. apply Hout. by left.
Defined.

(** C2 as stated fails at a visibility that takes the clock beyond the
    dates there are: with an eligible record in the queue, checkout rejects
    and claims nothing. *)
Lemma checkout_beyond_dates_is_rejected :
  (∃ j, j ∈ queueDocs Ex.unordered ∧ eligible (clock Ex.env (ticks Ex.unordered)) j) ∧
  JobQueue.checkout Ex.env Ex.plain (Some 10000000000000) Ex.unordered
  = (Rejected (Thrown CastError), mkWorld (queueDocs Ex.unordered) [] 8 1 3) ∧
  ¬ ∃ r w', JobQueue.checkout Ex.env Ex.plain (Some 10000000000000) Ex.unordered
            = (Resolved r, w').
Proof.
  split_and!.
  - exists Ex.one. split.
    + apply list_elem_of_lookup. by exists 1%nat.
    + split; [reflexivity|]. vm_compute. discriminate.
  - vm_compute. reflexivity.
  - intros (r & w' & H). vm_compute in H. discriminate.
Qed.




Lemma ping_without_match_resolves_null_witness :
  (¬ ∃ j, j ∈ queueDocs Ex.leased_out ∧
          leased (Some "0b5e7d21") true (clock Ex.env (ticks Ex.leased_out)) j) ∧
  dated (ping_lease Ex.env Ex.plain (Some 60) Ex.leased_out) ∧
  (∃ w', JobQueue.ping Ex.env Ex.plain (Some "0b5e7d21") (Some 60) (Some 15)
           (JS.str "Two") Ex.leased_out
         = (Resolved Null, w') ∧
         queueDocs w' = queueDocs Ex.leased_out ∧ deadDocs w' = deadDocs Ex.leased_out) ∧
  ¬ dated (ping_lease Ex.env Ex.plain (Some 10000000000000) Ex.leased_out) ∧
  ∃ w', JobQueue.ping Ex.env Ex.plain (Some "0b5e7d21") (Some 10000000000000) None
          JS.undefined Ex.leased_out
        = (Rejected (Thrown CastError), w') ∧
        queueDocs w' = queueDocs Ex.leased_out ∧ deadDocs w' = deadDocs Ex.leased_out.
Proof.
  assert (¬ ∃ j, j ∈ queueDocs Ex.leased_out ∧
                 leased (Some "0b5e7d21") true (clock Ex.env (ticks Ex.leased_out)) j)
    as Hyp.
  { intros (j & Hin & Htok & _). simpl in Hin.
    apply elem_of_cons in Hin as [->|Hin]; [discriminate|].
    apply elem_of_cons in Hin as [->|Hin]; [discriminate|].
    by apply elem_of_nil in Hin. }
  assert (dated (ping_lease Ex.env Ex.plain (Some 60) Ex.leased_out)) as Hd
    by (vm_compute; discriminate).
  assert (¬ dated (ping_lease Ex.env Ex.plain (Some 10000000000000) Ex.leased_out))
    as Hbeyond by (vm_compute; intros H; apply H; reflexivity).
  split; [exact Hyp|]. split; [exact Hd|]. split.
  - exact (proj1 (ping_without_match_resolves_null Ex.env Ex.plain (Some "0b5e7d21")
                    (Some 60) (Some 15) (JS.str "Two") Ex.leased_out Hyp) Hd).
  - split; [exact Hbeyond|].
    exact (proj2 (ping_without_match_resolves_null Ex.env Ex.plain (Some "0b5e7d21")
                    (Some 10000000000000) None JS.undefined Ex.leased_out Hyp) Hbeyond).
Defined.

(** C5 as stated fails: a ping with a token no record carries resolves
    with null, it is not rejected. *)
Lemma ping_unknown_token_is_not_rejected :
  (¬ ∃ j, j ∈ queueDocs Ex.leased_out ∧
          leased (Some "0b5e7d21") true (clock Ex.env (ticks Ex.leased_out)) j) ∧
  (∃ w', JobQueue.ping Ex.env Ex.plain (Some "0b5e7d21") None None JS.undefined
           Ex.leased_out = (Resolved Null, w')) ∧
  ¬ ∃ e w', JobQueue.ping Ex.env Ex.plain (Some "0b5e7d21") None None JS.undefined
              Ex.leased_out = (Rejected e, w').
Proof.
  split_and!.
  - intros (j & Hin & Htok & _). simpl in Hin.
    apply elem_of_cons in Hin as [->|Hin]; [discriminate|].
    apply elem_of_cons in Hin as [->|Hin]; [discriminate|].
    by apply elem_of_nil in Hin.
  - eexists. vm_compute. reflexivity.
  - intros (e & w' & H). vm_compute in H. discriminate.
Qed.

Lemma ping_updates_lease_witness :
  (∃ j, j ∈ queueDocs Ex.leased_out ∧
        leased (Some "c8a3cc58") true (clock Ex.env (ticks Ex.leased_out)) j) ∧
  dated (ping_lease Ex.env Ex.plain (Some 60) Ex.leased_out) ∧
  ∃ j' w', JobQueue.ping Ex.env Ex.plain (Some "c8a3cc58") (Some 60) (Some 15)
             JS.undefined Ex.leased_out = (Resolved (One (Plain j')), w') ∧
           Job.progress j' = Some 15 ∧ Job.visible j' = 69000.
Proof.
  assert (∃ j, j ∈ queueDocs Ex.leased_out ∧
               leased (Some "c8a3cc58") true (clock Ex.env (ticks Ex.leased_out)) j)
    as Hyp.
  { exists Ex.held. split.
    - apply list_elem_of_lookup. by exists 0%nat.
    - split_and!; [reflexivity..|]. intros _. vm_compute. reflexivity. }
  assert (dated (ping_lease Ex.env Ex.plain (Some 60) Ex.leased_out)) as Hd
    by (vm_compute; discriminate).
  split; [exact Hyp|]. split; [exact Hd|].
  destruct (ping_updates_lease Ex.env Ex.plain (Some "c8a3cc58") (Some 60) (Some 15)
              JS.undefined Ex.leased_out Hyp Hd)
    as (i & j & j' & w' & _ & _ & Hping & _ & _ & Hvis & Hprog & _).
  exists j', w'. split_and!; [exact Hping| |exact Hvis].
  apply (Hprog 15); [reflexivity|discriminate].
Defined.

(** C7, at a progress of 0, which is within 0 to 100: ping resolves with
    the record it found, and the record keeps the progress it had, 50; the
    0 is not stored. *)
Lemma ping_zero_progress_is_not_stored :
  0 <= 0 <= 100 ∧
  (∃ j, j ∈ queueDocs Ex.leased_out ∧
        leased (Some "c8a3cc58") true (clock Ex.env (ticks Ex.leased_out)) j) ∧
  ∃ j' w', JobQueue.ping Ex.env Ex.plain (Some "c8a3cc58") None (Some 0)
             JS.undefined Ex.leased_out = (Resolved (One (Plain j')), w') ∧
           Job.progress j' = Some 50 ∧ Job.progress j' ≠ Some 0.
Proof.
  split_and!; [lia|lia| |].
  - exists Ex.held. split.
    + apply list_elem_of_lookup. by exists 0%nat.
    + split_and!; [reflexivity..|]. intros _. vm_compute. reflexivity.
  - eexists _, _. split_and!; [vm_compute; reflexivity|reflexivity|discriminate].
Qed.

Lemma zero_visibility_means_default_witness :
  JobQueue.checkout Ex.env Ex.plain (Some 0) Ex.unordered
  = (Resolved (One (Plain Scene.claimed_one)), Scene.one_out) ∧
  JobQueue.ping Ex.env Ex.plain (Some "c8a3cc58") (Some 0) None JS.undefined Ex.leased_out
  = (Resolved (One (Plain Scene.pinged_held)), Scene.pinged) ∧
  Options.visibility (JobQueue.options Ex.plain) = 30 ∧
  Job.visible Scene.claimed_one = clock Ex.env 7 + 30 * 1000 ∧
  Job.visible Scene.pinged_held = clock Ex.env 9 + 30 * 1000.
Proof.
  assert (JobQueue.checkout Ex.env Ex.plain (Some 0) Ex.unordered
          = (Resolved (One (Plain Scene.claimed_one)), Scene.one_out)) as Hco
    by (vm_compute; reflexivity).
  assert (JobQueue.ping Ex.env Ex.plain (Some "c8a3cc58") (Some 0) None JS.undefined
            Ex.leased_out
          = (Resolved (One (Plain Scene.pinged_held)), Scene.pinged)) as Hping
    by (vm_compute; reflexivity).
  split; [exact Hco|]. split; [exact Hping|]. split; [reflexivity|].
  destruct (zero_visibility_means_default Ex.env Ex.plain Ex.unordered)
    as (_ & _ & _ & Hlease & _).
  destruct (zero_visibility_means_default Ex.env Ex.plain Ex.leased_out)
    as (_ & _ & _ & _ & Hrelet).
  destruct (Hlease _ _ Hco) as (k & _ & Hvis & Hk). split.
  - rewrite Hvis, (Hk eq_refl). reflexivity.
  - exact (Hrelet _ _ _ _ _ Hping).
Defined.

Lemma deleted_records_untouched_witness :
  docs QueueModel Ex.acked !! 0%nat = Some Ex.finished ∧
  Job.deleted Ex.finished = Some 9000 ∧
  (∀ visibility r w', JobQueue.checkout Ex.env Ex.plain visibility Ex.acked = (r, w') →
                      docs QueueModel w' !! 0%nat = Some Ex.finished) ∧
  (∀ tok r w', JobQueue.acknowledge Ex.env Ex.plain tok Ex.acked = (r, w') →
               docs QueueModel w' !! 0%nat = Some Ex.finished).
Proof.
  split; [reflexivity|]. split; [reflexivity|].
  destruct (deleted_records_untouched Ex.env Ex.plain Ex.acked QueueModel 0%nat
              Ex.finished 9000 eq_refl eq_refl)
    as (_ & Hcheckout & _ & _ & Hack & _).
  split; [exact Hcheckout|exact Hack].
Defined.

(** The retry ceiling at work: with [maxRetries] 5, the sixth checkout of
    [worn] leaves it deleted in the queue and copied, with [tries] 6, in
    the dead queue, and serves the next record. *)
Example retry_ceiling_sends_to_dead_queue :
  ∃ w', JobQueue.checkout Ex.env Ex.with_dead None Ex.worn_out
        = (Resolved (One (Plain (claimed Ex.two "5cbaaacf" 42000))), w') ∧
        deadDocs w' = [Ex.dead_worn] ∧
        queueDocs w' !! 0%nat = Some (acknowledged Ex.claimed_worn 10000).
Proof. eexists. split_and!; [vm_compute; reflexivity|reflexivity..]. Qed.

(** * Further properties of the engine *)

(** ** Peek, and checkout on a queue with nothing to serve *)

Section Peek.

Context (env : Env).

Import JobQueue.

(** X1: peek writes to neither collection and resolves with the eligible
    record of least [_id], as stored, or with null when no record is
    eligible. *)
Theorem peek_reads_oldest_eligible this w :
  ∃ r w', peek env this w = (Resolved r, w') ∧
    queueDocs w' = queueDocs w ∧ deadDocs w' = deadDocs w ∧
    ((∃ i j, queueDocs w !! i = Some j ∧ eligible (clock env (ticks w)) j ∧
             (∀ j', j' ∈ queueDocs w → eligible (clock env (ticks w)) j' →
                    Job._id j <= Job._id j') ∧
             r = One (Plain j)) ∨
     ((∀ j, j ∈ queueDocs w → ¬ eligible (clock env (ticks w)) j) ∧ r = Null)).
Proof.
  rewrite peek_eq.
  destruct (Find.least_match _ _) as [[i j]|] eqn:E.
  - eexists _, _. split_and!; [done..|]. left.
    apply least_match_Some in E as (Hi & Hj & Hmin). apply matches_eligible in Hj.
    exists i, j. split_and!; [done..| |done].
    intros j' Hin He. apply Hmin; [done|]. by apply matches_eligible.
  - eexists _, _. split_and!; [done..|]. right. split; [|done].
    intros j Hin He. apply matches_eligible in He.
    pose proof (least_match_None _ _ E j Hin) as Hf.
    unfold checkout_query in Hf. congruence.
Qed.

(** X2: what peek shows is what checkout serves next.  On a queue without
    dead queue and a clock that does not run backwards, the checkout after
    a peek that showed [j], with a visibility that gives a date, serves a
    record whose [_id] is at most that of [j]; when the clock has not
    moved it serves [j], claimed. *)
Theorem peek_then_checkout this visibility w j w1 :
  deadQueue this = None →
  peek env this w = (Resolved (One (Plain j)), w1) →
  clock env (ticks w) <= clock env (ticks w1) →
  dated (checkout_lease env this visibility w1) →
  ∃ job w2,
    checkout env this visibility w1 = (Resolved (One (Plain job)), w2) ∧
    Job._id job <= Job._id j ∧
    (clock env (ticks w1) = clock env (ticks w) →
     job = claimed j (randomBytes env (draws w1))
             (clock env (S (ticks w1))
              + JS.or_num visibility (Options.visibility (options this)) * 1000)).
Proof.
  intros Hdq Hpeek Hclock Hdated. rewrite peek_eq in Hpeek.
  destruct (Find.least_match _ _) as [[i m]|] eqn:E; [|done].
  injection Hpeek as -> <-.
  destruct (least_match_Some _ _ _ _ E) as (Hi & Hj & _).
  apply matches_eligible in Hj as [Hlive Hvis].
  assert (j ∈ queueDocs (tick w)) as Hin by (apply list_elem_of_lookup; by exists i).
  destruct (least_match_is_Some (Query.matches (checkout_query env (tick w))) _ j Hin)
    as [[k m] E1]; [apply matches_eligible; split; [done|lia]|].
  destruct (least_match_Some _ _ _ _ E1) as (Hk & Hm & Hmin).
  eexists _, _. unfold checkout. rewrite checkout_fuel_eq. unfold and_then.
  cbv zeta. rewrite claim_eq, E1 by done. cbv beta iota zeta.
  rewrite settle_direct by auto.
  split_and!; [done| |].
  - simpl. apply Hmin; [done|]. apply matches_eligible. split; [done|lia].
  - intros Heq. unfold checkout_query in E1. rewrite Heq in E1.
    fold (checkout_query env w) in E1. simpl in E1. rewrite E in E1.
    by injection E1 as <- <-.
Qed.

Lemma claim_finds_nothing vis w :
  (∀ j, j ∈ queueDocs w → ¬ eligible (clock env (ticks w)) j) →
  dated (clock env (S (ticks w)) + vis * 1000) →
  claim env vis w
  = (Resolved None,
     mkWorld (queueDocs w) (deadDocs w) (S (S (ticks w))) (S (draws w)) (nextId w)).
Proof.
  intros Hno Hd. rewrite claim_eq by done.
  destruct (Find.least_match _ _) as [[i j]|] eqn:E; [|done].
  apply least_match_Some in E as (Hi & Hj & _). apply matches_eligible in Hj.
  destruct (Hno j); [|done]. apply list_elem_of_lookup. by exists i.
Qed.

Lemma checkout_finds_nothing this visibility w :
  (∀ j, j ∈ queueDocs w → ¬ eligible (clock env (ticks w)) j) →
  dated (checkout_lease env this visibility w) →
  checkout env this visibility w
  = (Resolved Null,
     mkWorld (queueDocs w) (deadDocs w) (S (S (ticks w))) (S (draws w)) (nextId w)).
Proof.
  intros Hno Hd. unfold checkout. rewrite checkout_fuel_eq. unfold and_then; cbv zeta.
  rewrite claim_finds_nothing by done. by rewrite settle_direct_eq by auto.
Qed.

Lemma checkout_undated this visibility w :
  ¬ dated (checkout_lease env this visibility w) →
  checkout env this visibility w
  = (Rejected (Thrown CastError),
     mkWorld (queueDocs w) (deadDocs w) (S (S (ticks w))) (S (draws w)) (nextId w)).
Proof.
  intros Hd. unfold checkout. rewrite checkout_fuel_eq. unfold and_then; cbv zeta.
  by rewrite claim_undated.
Qed.

(** X3: with no eligible record, checkout changes no record, reads the
    clock twice and draws a token; it resolves with null when the clock
    plus the visibility is a date, and rejects with the cast error of the
    store when it is beyond the dates there are. *)
Theorem checkout_nothing_eligible this visibility w :
  (∀ j, j ∈ queueDocs w → ¬ eligible (clock env (ticks w)) j) →
  let w' := mkWorld (queueDocs w) (deadDocs w) (S (S (ticks w))) (S (draws w))
              (nextId w) in
  (dated (checkout_lease env this visibility w) →
   checkout env this visibility w = (Resolved Null, w')) ∧
  (¬ dated (checkout_lease env this visibility w) →
   checkout env this visibility w = (Rejected (Thrown CastError), w')).
Proof.
  intros Hno w'. split; intros Hd.
  - by apply checkout_finds_nothing.
  - by apply checkout_undated.
Qed.

(** X4: checkout always settles.  Its recursion through the dead queue
    ends because each recursive call follows an acknowledgement that
    leaves one live record fewer, and [checkout] obeys the equation the
    source defines it by. *)
Theorem checkout_always_settles this visibility w :
  (checkout env this visibility w).1 ≠ Pending ∧
  checkout env this visibility w
  = and_then (claim env (JS.or_num visibility (Options.visibility (options this))))
      (settle env this
         (checkout env this
            (Some (JS.or_num visibility (Options.visibility (options this)))))) w.
Proof. split; [apply checkout_settles|apply checkout_eq]. Qed.

End Peek.

(** ** Add *)

Section Add.

Context (env : Env).

Import JobQueue.













(** X5: add of an empty list rejects and stores nothing. *)
Theorem add_rejects_empty_list this delay w :
  ∃ w', add env this (JS.array []) delay w
        = (Rejected (new_Error "JobQueue.add(): Payload array length must be greater than 0."),
           w') ∧
        queueDocs w' = queueDocs w ∧ deadDocs w' = deadDocs w ∧ nextId w' = nextId w.
Proof. rewrite add_eq. by eexists. Qed.



End Add.

(** ** Add, then checkout *)

Section Delay.

Context (env : Env).

Import JobQueue.



End Delay.

(** ** What the lifecycle keeps *)

Section Lifecycle.

Context (env : Env).

Import JobQueue.

(** A property of two worlds that holds along the steps of [checkout]
    holds along [checkout]. *)
Lemma checkout_fuel_invariant (T : t → World → World → Prop) :
  (∀ this w, T this w w) →
  (∀ this a b c, T this a b → T this b c → T this a c) →
  (∀ this vis w r w', claim env vis w = (r, w') → T this w w') →
  (∀ this job w r w',
     Options.maxRetries (options this) < Job.tries job →
     create env DeadModel [dead_insert job] w = (r, w') → T this w w') →
  (∀ this tok w r w', acknowledge env this tok w = (r, w') → T this w w') →
  ∀ fuel this visibility w r w',
    checkout_fuel env fuel this visibility w = (r, w') → T this w w'.
Proof.
  intros Hrefl Htrans Hclaim Hcreate Hack fuel this.
  induction fuel as [|fuel IH]; intros visibility w r w';
    rewrite checkout_fuel_eq; unfold and_then; cbv zeta;
    destruct (claim env _ w) as [r1 w1] eqn:Hc; apply (Hclaim this) in Hc;
    (destruct r1 as [job| |]; [|by intros [= <- <-]..]);
    (destruct (settle_case this job) as [Hd|(j & -> & Hdq & Hgt)];
      [rewrite settle_direct_eq by done; by intros [= <- <-]|]);
    rewrite settle_evict_eq by done; unfold evict, and_then, ack;
    destruct (create env DeadModel _ w1) as [r2 w2] eqn:Hcr;
    apply (Hcreate this j _ _ _ Hgt) in Hcr;
    (destruct r2 as [x| |]; [|intros [= <- <-]; by eapply Htrans..]);
    destruct (acknowledge env this _ w2) as [r3 w3] eqn:Hk;
    apply Hack in Hk;
    assert (T this w w3) as H3 by (eapply Htrans; [|done]; by eapply Htrans);
    (destruct r3 as [y| |]; [|by intros [= <- <-]..]).
  - by intros [= <- <-].
  - destruct (checkout_fuel env fuel this _ w3) as [r4 w4] eqn:E.
    pose proof E as E'. apply IH in E.
    assert (T this w w4) by (by eapply Htrans).
    destruct r4 as [r4| |]; [|by intros [= <- <-]..].
    rewrite (prep_served env this) by (by eapply checkout_fuel_served).
    by intros [= <- <-].
Qed.

Lemma evolves_refl R w : (∀ j, R j j) → evolves R w w.
Proof. intros HR i j Hi. by exists j. Qed.

Lemma evolves_trans R a b c :
  (∀ x y z, R x y → R y z → R x z) → evolves R a b → evolves R b c → evolves R a c.
Proof.
  intros HR Hab Hbc i j Hi. destruct (Hab i j Hi) as (j1 & H1 & R1).
  destruct (Hbc i j1 H1) as (j2 & H2 & R2). exists j2. split; [done|]. by eapply HR.
Qed.

Lemma evolves_same R w w' :
  (∀ j, R j j) → queueDocs w' = queueDocs w → evolves R w w'.
Proof. intros HR Hq i j Hi. exists j. split; [congruence|done]. Qed.

Lemma evolves_app R w w' l :
  (∀ j, R j j) → queueDocs w' = queueDocs w ++ l → evolves R w w'.
Proof.
  intros HR Hq i j Hi. exists j. split; [|done]. rewrite Hq. by apply lookup_app_l_Some.
Qed.

Lemma evolves_insert R w w' k x y :
  (∀ j, R j j) → queueDocs w !! k = Some x → R x y →
  queueDocs w' = <[k:=y]> (queueDocs w) → evolves R w w'.
Proof.
  intros HR Hk Hxy Hq i j Hi. rewrite Hq. destruct (decide (i = k)) as [->|Hne].
  - exists y. rewrite list_lookup_insert_eq by (by eapply lookup_lt_Some).
    split; [done|]. congruence.
  - exists j. by rewrite list_lookup_insert_ne.
Qed.

Lemma reclaimed_refl j : reclaimed j j.
Proof. unfold reclaimed. split_and!; [done..|lia]. Qed.

Lemma reclaimed_trans x y z : reclaimed x y → reclaimed y z → reclaimed x z.
Proof.
  unfold reclaimed. intros (? & ? & ? & ?) (? & ? & ? & ?).
  split_and!; [congruence..|lia].
Qed.

Lemma claim_evolves vis w r w' : claim env vis w = (r, w') → evolves reclaimed w w'.
Proof.
  claim_cases env vis w;
    [|intros [= <- <-]; apply evolves_same; [apply reclaimed_refl|done]].
  destruct (Find.least_match _ _) as [[k x]|] eqn:E; simpl; intros [= <- <-].
  - apply least_match_Some in E as (Hk & _).
    eapply (evolves_insert _ _ _ k x); [apply reclaimed_refl|done| |done].
    unfold reclaimed; simpl. split_and!; [done..|lia].
  - apply evolves_same; [apply reclaimed_refl|done].
Qed.

Lemma create_dead_queue_same ins w r w' :
  create env DeadModel ins w = (r, w') → queueDocs w' = queueDocs w.
Proof. by intros (js & _ & Hq)%create_appends. Qed.

Lemma acknowledge_evolves this tok w r w' :
  acknowledge env this tok w = (r, w') → evolves struck_off w w'.
Proof.
  assert (∀ j, struck_off j j) as Hrefl by (by intros j; unfold struck_off).
  rewrite acknowledge_eq; cbv zeta.
  destruct (Find.least_match _ _) as [[k x]|] eqn:E; intros [= <- <-].
  - apply least_match_Some in E as (Hk & _).
    eapply (evolves_insert _ _ _ k x); [done|done| |done]. by unfold struck_off.
  - by apply evolves_same.
Qed.

Lemma evolves_weaken (R S : Job.t → Job.t → Prop) w w' :
  (∀ j j', R j j' → S j j') → evolves R w w' → evolves S w w'.
Proof.
  intros HRS H i j Hi. destruct (H i j Hi) as (j' & ? & ?). exists j'. auto.
Qed.

(** X9: no operation of the lifecycle drops or moves a record or changes
    its [_id], and [tries] never goes down.  Add and peek leave every
    record as it is; ping leaves [tries], token and [deleted]; acknowledge
    leaves all but [deleted]; checkout leaves payload and progress and is
    the only one to raise [tries]. *)
Theorem lifecycle_keeps_records this w :
  (∀ payload delay r w', add env this payload delay w = (r, w') → evolves eq w w') ∧
  (∀ r w', peek env this w = (r, w') → evolves eq w w') ∧
  (∀ tok visibility percent payload r w',
     ping env this tok visibility percent payload w = (r, w') → evolves relet w w') ∧
  (∀ tok r w', acknowledge env this tok w = (r, w') → evolves struck_off w w') ∧
  (∀ visibility r w',
     checkout env this visibility w = (r, w') → evolves reclaimed w w').
Proof.
  split_and!.
  - intros payload delay r w' (js & Hq & _)%add_appends.
    by apply (evolves_app _ _ _ js).
  - intros r w'. rewrite peek_eq.
    destruct (Find.least_match _ _) as [[? ?]|]; intros [= <- <-]; by apply evolves_same.
  - intros tok visibility percent payload r w'. rewrite ping_cases; cbv zeta.
    assert (∀ j, relet j j) as Hrefl by (by intros j; unfold relet).
    destruct (JS.new_Date _); [|intros [= <- <-]; by apply evolves_same].
    destruct (Find.least_match _ _) as [[k x]|] eqn:E; intros [= <- <-].
    + apply least_match_Some in E as (Hk & _).
      eapply (evolves_insert _ _ _ k x); [done|done| |done]. by unfold relet.
    + by apply evolves_same.
  - intros tok r w'. apply acknowledge_evolves.
  - intros visibility r w'.
    apply (checkout_fuel_invariant (λ _, evolves reclaimed)).
    + intros _ w0. apply evolves_refl, reclaimed_refl.
    + intros _ a b c. apply evolves_trans, reclaimed_trans.
    + intros _. apply claim_evolves.
    + intros _ job w0 r0 w0' _ Hcr. apply create_dead_queue_same in Hcr.
      apply evolves_same; [apply reclaimed_refl|done].
    + intros this0 tok w0 r0 w0' Hk. apply acknowledge_evolves in Hk.
      eapply evolves_weaken; [|done].
      unfold struck_off, reclaimed. intros j j' (? & ? & ? & ? & ? & ?).
      split_and!; [done..|lia].
Qed.

End Lifecycle.

(** ** The dead queue *)

Section DeadQueue.

Context (env : Env).

Import JobQueue.

Lemma worn_copies_refl this w : worn_copies this w w.
Proof. exists []. by rewrite app_nil_r. Qed.

Lemma worn_copies_trans this a b c :
  worn_copies this a b → worn_copies this b c → worn_copies this a c.
Proof.
  intros (e1 & H1 & F1) (e2 & H2 & F2). exists (e1 ++ e2).
  split; [by rewrite H2, H1, app_assoc|]. by apply Forall_app.
Qed.

Lemma worn_copies_same this w w' : deadDocs w' = deadDocs w → worn_copies this w w'.
Proof. intros H. exists []. by rewrite app_nil_r. Qed.

(** X10: the dead queue takes in nothing but records over the retry
    limit.  Checkout leaves the records of the dead queue as they are and
    appends only copies whose [tries] is over [maxRetries], without token
    and not deleted; add, peek, ping and acknowledge leave the dead queue
    as it is. *)
Theorem dead_queue_takes_worn_records_only this w :
  (∀ visibility r w', checkout env this visibility w = (r, w') →
                      worn_copies this w w') ∧
  (∀ payload delay r w', add env this payload delay w = (r, w') →
                         deadDocs w' = deadDocs w) ∧
  (∀ r w', peek env this w = (r, w') → deadDocs w' = deadDocs w) ∧
  (∀ tok visibility percent payload r w',
     ping env this tok visibility percent payload w = (r, w') →
     deadDocs w' = deadDocs w) ∧
  (∀ tok r w', acknowledge env this tok w = (r, w') → deadDocs w' = deadDocs w).
Proof.
  split_and!.
  - intros visibility r w'. apply (checkout_fuel_invariant env worn_copies).
    + apply worn_copies_refl.
    + apply worn_copies_trans.
    + intros this0 vis w0 r0 w0'.
      claim_cases env vis w0; [|intros [= <- <-]; by apply worn_copies_same].
      destruct (Find.least_match _ _) as [[? ?]|]; intros [= <- <-];
        by apply worn_copies_same.
    + intros this0 job w0 r0 w0' Hgt. rewrite create_dead_eq.
      destruct (Insert.valid _); intros [= <- <-]; [|by apply worn_copies_same].
      exists [dead_copy env job w0]. split; [done|]. by repeat constructor.
    + intros this0 tok w0 r0 w0'. rewrite acknowledge_eq; cbv zeta.
      destruct (Find.least_match _ _) as [[? ?]|]; intros [= <- <-];
        by apply worn_copies_same.
  - by intros payload delay r w' (js & _ & Hd)%add_appends.
  - intros r w'. rewrite peek_eq.
    by destruct (Find.least_match _ _) as [[? ?]|]; intros [= <- <-].
  - intros tok visibility percent payload r w'. rewrite ping_cases; cbv zeta.
    destruct (JS.new_Date _); [|by intros [= <- <-]].
    by destruct (Find.least_match _ _) as [[? ?]|]; intros [= <- <-].
  - intros tok r w'. rewrite acknowledge_eq; cbv zeta.
    by destruct (Find.least_match _ _) as [[? ?]|]; intros [= <- <-].
Qed.

Lemma claim_balance vis w r w' : claim env vis w = (r, w') → balance w' = balance w.
Proof.
  intros H. pose proof H as (_ & Hlive & _)%claim_live. unfold balance.
  rewrite Hlive. f_equal. revert H.
  claim_cases env vis w; [|by intros [= <- <-]].
  by destruct (Find.least_match _ _) as [[? ?]|]; intros [= <- <-].
Qed.

Lemma evict_balance this j w r w3 :
  evict env this j w = (r, w3) →
  (balance w ≤ balance w3 ≤ balance w + 1)%nat ∧
  (∀ x, r = Resolved x → balance w3 = balance w).
Proof.
  unfold evict, and_then, ack. rewrite create_dead_eq.
  destruct (Insert.valid _);
    [|intros [= <- <-]; unfold balance; simpl; split; [lia|done]].
  rewrite acknowledge_eq; cbv zeta.
  destruct (Find.least_match _ _) as [[k x]|] eqn:E; intros [= <- <-].
  - apply least_match_Some in E as (Hk & Hx & _).
    apply matches_lease_filter in Hx as (_ & Hx & _). simpl in Hk.
    unfold balance, live; simpl. rewrite length_app; simpl.
    pose proof (count_insert_drop (λ j, Job.deleted j = None) (queueDocs w) k x
                  (acknowledged x (clock env (lease_ticks this
                     (mkWorld (queueDocs w) (deadDocs w ++ [dead_copy env j w])
                        (S (ticks w)) (draws w) (nextId w + 1))))) Hk Hx) as Hdrop.
    assert (¬ Job.deleted (acknowledged x (clock env (lease_ticks this
                     (mkWorld (queueDocs w) (deadDocs w ++ [dead_copy env j w])
                        (S (ticks w)) (draws w) (nextId w + 1))))) = None) as Hnot by done.
    specialize (Hdrop Hnot). split; [lia|]. intros _ _. lia.
  - unfold balance; simpl. rewrite length_app; simpl. split; [lia|done].
Qed.

Lemma checkout_fuel_balance fuel this visibility w r w' :
  checkout_fuel env fuel this visibility w = (r, w') →
  (balance w ≤ balance w' ≤ balance w + 1)%nat ∧
  (∀ x, r = Resolved x → balance w' = balance w).
Proof.
  revert visibility w r w'. induction fuel as [|fuel IH]; intros visibility w r w';
    rewrite checkout_fuel_eq; unfold and_then; cbv zeta;
    destruct (claim env _ w) as [r1 w1] eqn:Hc; apply claim_balance in Hc;
    (destruct r1 as [job| |]; [|intros [= <- <-]; split; [lia|done]..]);
    (destruct (settle_case this job) as [Hd|(j & -> & Hdq & Hgt)];
      [rewrite settle_direct_eq by done; intros [= <- <-]; split; [lia|intros; lia]|]);
    rewrite settle_evict_eq by done; unfold and_then;
    destruct (evict env this j w1) as [r3 w3] eqn:He;
    apply evict_balance in He as [Hb3 Hr3];
    (destruct r3 as [y| |]; [|intros [= <- <-]; split; [lia|done]..]);
    specialize (Hr3 y eq_refl).
  - intros [= <- <-]. split; [lia|done].
  - destruct (checkout_fuel env fuel this _ w3) as [r4 w4] eqn:E4.
    pose proof E4 as E4'. apply IH in E4 as [Hb Hr].
    destruct r4 as [z| |]; [|intros [= <- <-]; (split; [lia|done])..].
    rewrite (prep_served env this) by (by eapply checkout_fuel_served).
    intros [= <- <-]. split; [lia|].
    intros _ _. rewrite (Hr z eq_refl). lia.
Qed.

(** X11: checkout accounts for every job.  Whatever checkout does, the
    live records of the queue and the records of the dead queue together
    are as many as before, or one more; when checkout resolves they are
    as many as before: each record sent to the dead queue has left the
    live records of the queue. *)
Theorem checkout_accounts_for_every_job this visibility w r w' :
  checkout env this visibility w = (r, w') →
  (balance w ≤ balance w' ≤ balance w + 1)%nat ∧
  (∀ x, r = Resolved x → balance w' = balance w) ∧
  length (queueDocs w') = length (queueDocs w).
Proof.
  intros H. destruct (checkout_fuel_balance _ _ _ _ _ _ H) as [Hb Hr].
  split; [done|]. split; [done|].
  revert H. apply (checkout_fuel_invariant env
                     (λ _ a b, length (queueDocs b) = length (queueDocs a))).
  - done.
  - intros _ a b c. congruence.
  - intros _ vis w0 r0 w0' Hc. by apply claim_live in Hc as (? & _).
  - intros _ job w0 r0 w0' _ Hcr. by rewrite (create_dead_queue_same env _ _ _ _ Hcr).
  - intros this0 tok w0 r0 w0'. rewrite acknowledge_eq; cbv zeta.
    destruct (Find.least_match _ _) as [[? ?]|]; intros [= <- <-]; simpl; [|done].
    by rewrite length_insert.
Qed.

End DeadQueue.

(** ** Leases *)

Section Leases.

Context (env : Env).

Import JobQueue.

Lemma count_at_most_one {A} (P : A → Prop) `{!∀ x, Decision (P x)} (l : list A) i i' x y :
  (count P l ≤ 1)%nat → l !! i = Some x → l !! i' = Some y → P x → P y → i = i'.
Proof.
  unfold count. revert i i'. induction l as [|a l IH]; intros i i'; [done|].
  rewrite filter_cons. destruct i as [|i], i' as [|i']; simpl; try done.
  - intros Hc [= ->] Hy Hx HPy. rewrite decide_True in Hc by done. simpl in Hc.
    assert (y ∈ filter P l) as Hin
      by (apply list_elem_of_filter; split; [done|]; apply list_elem_of_lookup; by exists i').
    destruct (filter P l); [by apply elem_of_nil in Hin|simpl in Hc; lia].
  - intros Hc Hx [= ->] HPx HPy. rewrite decide_True in Hc by done. simpl in Hc.
    assert (x ∈ filter P l) as Hin
      by (apply list_elem_of_filter; split; [done|]; apply list_elem_of_lookup; by exists i).
    destruct (filter P l); [by apply elem_of_nil in Hin|simpl in Hc; lia].
  - intros Hc Hx Hy HPx HPy. f_equal. apply (IH i i'); try done.
    destruct (decide (P a)); simpl in Hc; lia.
Qed.

(** The record checkout resolves with is in the queue as returned, live
    and with a token. *)
Lemma checkout_fuel_returns_stored fuel this visibility w job w' :
  checkout_fuel env fuel this visibility w = (Resolved (One (Plain job)), w') →
  ∃ i, queueDocs w' !! i = Some job ∧ Job.deleted job = None ∧ is_Some (Job.ack job).
Proof.
  revert visibility w. induction fuel as [|fuel IH]; intros visibility w;
    rewrite checkout_fuel_eq; unfold and_then; cbv zeta;
    destruct (claim env _ w) as [[j1| |] w1] eqn:Hc; try done;
    (destruct (settle_case this j1) as [Hd|(j & -> & Hdq & Hgt)];
      [rewrite settle_direct_eq by done; destruct j1 as [j|]; [|done]; simpl;
       intros [= <- <-];
       apply claim_resolves in Hc as (i & j0 & Hi & [Hlive _] & -> & Hq & _);
       exists i; rewrite Hq, list_lookup_insert_eq by (by eapply lookup_lt_Some);
       split_and!; [done|done|by eexists]|]);
    rewrite settle_evict_eq by done; unfold and_then;
    destruct (evict env this j w1) as [[y| |] w3]; try done.
  destruct (checkout_fuel env fuel this _ w3) as [[r4| |] w4] eqn:E4; try done.
  rewrite (prep_served env this) by (by eapply checkout_fuel_served).
  intros [= -> <-]. by eapply IH.
Qed.

(** X12: checkout, then acknowledge.  When the token of the record that
    checkout served is carried by no other live record and, under
    strictAck, the visibility window is still open, acknowledge with that
    token resolves with that record, sets its [deleted] and nothing else,
    and no later checkout touches the record. *)
Theorem checkout_then_acknowledge this visibility w job w1 :
  checkout env this visibility w = (Resolved (One (Plain job)), w1) →
  (holders (Job.ack job) (queueDocs w1) ≤ 1)%nat →
  (Options.strictAck (options this) = true → clock env (ticks w1) < Job.visible job) →
  ∃ i d w2,
    queueDocs w1 !! i = Some job ∧
    acknowledge env this (Job.ack job) w1
    = (Resolved (One (Plain (acknowledged job d))), w2) ∧
    queueDocs w2 = <[i:=acknowledged job d]> (queueDocs w1) ∧
    deadDocs w2 = deadDocs w1 ∧
    (∀ visibility' r w3, checkout env this visibility' w2 = (r, w3) →
                         queueDocs w3 !! i = Some (acknowledged job d)).
Proof.
  intros Hco Hone Hopen.
  apply checkout_fuel_returns_stored in Hco as (i & Hi & Hlive & _).
  assert (leased (Job.ack job) (Options.strictAck (options this))
            (clock env (ticks w1)) job) as Hleased by done.
  destruct (acknowledge_finds env this (Job.ack job) w1 job) as (r & w2 & Hack);
    [apply list_elem_of_lookup; by exists i|done|].
  pose proof Hack as (i' & m & Hi' & (Hm1 & Hm2 & _) & -> & Hq & Hd)%acknowledge_resolves.
  assert (i' = i) as ->.
  { unfold holders in Hone. by eapply (count_at_most_one _ _ i' i m job Hone). }
  assert (m = job) as -> by congruence.
  exists i, (clock env (lease_ticks this w1)), w2. split_and!; [done..|].
  intros visibility' r w3 Hco3. apply checkout_fuel_keeps in Hco3.
  apply (Hco3 QueueModel); simpl; [|by eexists].
  rewrite Hq. apply list_lookup_insert_eq. by eapply lookup_lt_Some.
Qed.

(** X13: a lease shuts the record off.  On a queue without dead queue,
    while the clock is before the [visible] of the record checkout
    served, the next checkout leaves that record as it is: with a
    visibility that gives a date it serves another record, or null, and
    with one that gives none it rejects. *)
Theorem lease_excludes_next_checkout this visibility visibility' w job w1 r w2 :
  deadQueue this = None →
  checkout env this visibility w = (Resolved (One (Plain job)), w1) →
  clock env (ticks w1) < Job.visible job →
  checkout env this visibility' w1 = (r, w2) →
  ∃ i, queueDocs w1 !! i = Some job ∧ queueDocs w2 !! i = Some job ∧
       (dated (checkout_lease env this visibility' w1) →
        r = Resolved Null ∨
        ∃ k other, k ≠ i ∧ r = Resolved (One (Plain other)) ∧
                   queueDocs w2 !! k = Some other) ∧
       (¬ dated (checkout_lease env this visibility' w1) →
        r = Rejected (Thrown CastError)).
Proof.
  intros Hdq Hco Hopen. apply checkout_fuel_returns_stored in Hco as (i & Hi & _).
  destruct (dated_dec (checkout_lease env this visibility' w1)) as [Hd|Hd];
    [|rewrite checkout_undated by done; intros [= <- <-]; exists i;
      split_and!; [done|done|done|done]].
  unfold checkout. rewrite checkout_fuel_eq. unfold and_then; cbv zeta.
  rewrite claim_eq by done.
  destruct (Find.least_match _ _) as [[k j0]|] eqn:E; cbv beta iota zeta.
  - rewrite settle_direct_eq by auto. intros [= <- <-].
    apply least_match_Some in E as (Hk & [_ Hvis]%matches_eligible & _).
    assert (k ≠ i) as Hne by (intros ->; assert (j0 = job) by congruence; subst; lia).
    exists i. cbn [queueDocs]. split_and!; [done| | |done].
    + by rewrite list_lookup_insert_ne.
    + intros _. right. eexists k, _. split_and!; [done|done|].
      apply list_lookup_insert_eq. by eapply lookup_lt_Some.
  - rewrite settle_direct_eq by auto. intros [= <- <-].
    exists i. split_and!; [done|done|by left|done].
Qed.

(** X14: an elapsed lease.  For a live record whose [visible] has passed
    and whose token no other live record carries, and a ping with a
    visibility that gives a date: under strictAck, acknowledge rejects,
    ping resolves with null, and the record is eligible for checkout
    again; without strictAck, acknowledge resolves and deletes the record,
    and ping resolves with the record and a new [visible]. *)
Theorem elapsed_lease this tok visibility percent payload w i j :
  queueDocs w !! i = Some j → Job.ack j = tok → Job.deleted j = None →
  Job.visible j <= clock env (ticks w) →
  (holders tok (queueDocs w) ≤ 1)%nat →
  dated (ping_lease env this visibility w) →
  eligible (clock env (ticks w)) j ∧
  (Options.strictAck (options this) = true →
   (acknowledge env this tok w).1 = Rejected not_found ∧
   (ping env this tok visibility percent payload w).1 = Resolved Null) ∧
  (Options.strictAck (options this) = false →
   (acknowledge env this tok w).1
   = Resolved (One (Plain (acknowledged j (clock env (ticks w))))) ∧
   ∃ j', (ping env this tok visibility percent payload w).1
         = Resolved (One (Plain j')) ∧
         Job._id j' = Job._id j ∧
         Job.visible j'
         = clock env (ticks w)
           + JS.or_num visibility (Options.visibility (options this)) * 1000).
Proof.
  intros Hi Htok Hlive Hvis Hone Hd. split; [done|].
  assert (j ∈ queueDocs w) as Hin by (apply list_elem_of_lookup; by exists i).
  split; intros Hs.
  - assert (¬ ∃ m, m ∈ queueDocs w ∧
                   leased tok (Options.strictAck (options this)) (clock env (ticks w)) m)
      as Hno.
    { intros (m & Hm & Hm1 & Hm2 & Hm3).
      apply list_elem_of_lookup in Hm as [k Hk].
      assert (k = i) as -> by (unfold holders in Hone;
                               by eapply (count_at_most_one _ _ k i m j Hone)).
      assert (m = j) as -> by congruence. specialize (Hm3 Hs). lia. }
    split.
    + by destruct (acknowledge_rejects env this tok w Hno) as (w' & -> & _).
    + by rewrite ping_finds_nothing.
  - assert (leased tok (Options.strictAck (options this)) (clock env (ticks w)) j)
      as Hleased by (split_and!; [done..|]; rewrite Hs; done).
    destruct (least_match_is_Some (Query.matches (lease_filter env this tok w)) _ j Hin)
      as [[k m] E]; [by apply matches_lease_filter|].
    destruct (least_match_Some _ _ _ _ E) as (Hk & Hm & _).
    apply matches_lease_filter in Hm as (Hm1 & Hm2 & _).
    assert (k = i) as -> by (unfold holders in Hone;
                             by eapply (count_at_most_one _ _ k i m j Hone)).
    assert (m = j) as -> by congruence.
    rewrite acknowledge_eq, ping_eq, E by done. cbv zeta.
    split; [unfold lease_ticks; by rewrite Hs|].
    eexists. split; [done|]. split; [done|].
    rewrite ping_visible by done. unfold ping_lease, lease_ticks. by rewrite Hs.
Qed.

End Leases.

(** ** Maintenance: cleanup, cleanupDead, reset and get *)

Section MaintenanceProperties.

Context (env : Env) (report : nat → Delete.result).

Import JobQueue.

Lemma gone_and_kept {A} (P : A → Prop) `{!∀ x, Decision (P x)} (l : list A) :
  (length (filter P l) + length (filter (λ x, ¬ P x) l))%nat = length l.
Proof.
  induction l as [|a l IH]; [done|]. rewrite !filter_cons.
  destruct (decide (P a)), (decide (¬ P a)); simpl; try tauto; lia.
Qed.

(** What [cleanup] leaves of the queue, and the clock reads it takes. *)
Lemma cleanup_eq this age w :
  cleanup env report this age w =
  let f := match age with
           | Some a => Delete.deleted_lt (JS.new_Date (clock env (ticks w) + a * -1 * 1000))
           | None => Delete.deleted_ne_null
           end in
  let k := match age with Some _ => S (ticks w) | None => ticks w end in
  if Delete.castable f
  then
    let w' := mkWorld (filter (λ j, Delete.matches f j ≠ true) (queueDocs w)) (deadDocs w)
                k (draws w) (nextId w) in
    match report (length (filter (λ j, Delete.matches f j = true) (queueDocs w))) with
    | Delete.none => (Rejected empty_result, w')
    | Delete.flat _ => (Pending, w')
    | Delete.nested n => (Resolved n, w')
    end
  else (Rejected (Wrapped (Thrown CastError)),
        mkWorld (queueDocs w) (deadDocs w) k (draws w) (nextId w)).
Proof.
  unfold cleanup, and_then, and_then_wrap, deleteMany, JobQueueHelper.nowPlusSecs.
  destruct age as [a|]; cbn [resolve fst snd]; cbv zeta.
  - destruct (JS.new_Date _); cbn [Delete.castable]; [|done].
    cbn [docs set_docs tick queueDocs deadDocs ticks draws nextId].
    by destruct (report _).
  - cbn [Delete.castable docs set_docs]. destruct w; simpl. by destruct (report _).
Qed.

(** X15: cleanup without an age removes the deleted records and nothing
    else: the live records stay, in order and as they are, and the dead
    queue is not touched.  With a store that hands back its count at
    [result.n], cleanup resolves with the number of records removed. *)
Theorem cleanup_purges_deleted this w :
  ∃ r w', cleanup env report this None w = (r, w') ∧
    queueDocs w' = filter (λ j, Job.deleted j = None) (queueDocs w) ∧
    deadDocs w' = deadDocs w ∧
    (reports_nested report →
     r = Resolved (length (queueDocs w) - live (queueDocs w))%nat).
Proof.
  rewrite cleanup_eq. cbv zeta. cbn [Delete.castable].
  assert (filter (λ j, Delete.matches Delete.deleted_ne_null j ≠ true) (queueDocs w)
          = filter (λ j, Job.deleted j = None) (queueDocs w)) as Hkept.
  { apply list_filter_iff. intros j. simpl. rewrite bool_decide_eq_true.
    destruct (Job.deleted j) as [t|]; split; intros H;
      [by destruct H|done|done|intros H'; by apply H']. }
  pose proof (gone_and_kept (λ j, Delete.matches Delete.deleted_ne_null j = true)
                (queueDocs w)) as Hlen.
  cbv beta in Hlen. rewrite Hkept in Hlen.
  destruct (report _) eqn:Hr; eexists _, _; (split; [done|]); simpl;
    (split_and!; [done|done|]); intros Hnested; rewrite Hnested in Hr; try done.
  injection Hr as <-. f_equal. unfold live, count. simpl in Hlen. lia.
Qed.

(** X16: cleanup with an age removes the records deleted before the
    clock minus the age, when that is a date, and nothing else: live
    records, and records deleted at that date or after, stay in order and
    as they are.  An age of 0 is an age: a record deleted at the very date
    of the clock stays, where cleanup without an age removes it.  The
    count is handed back by a store that has it at [result.n]; with one
    that has it at [n], cleanup never settles.  When the clock minus the
    age is beyond the dates there are, cleanup rejects with an [Error]
    around the cast error of the store and removes nothing. *)
Theorem cleanup_by_age this age w :
  let cutoff := clock env (ticks w) - age * 1000 in
  (dated cutoff →
   ∃ r w', cleanup env report this (Some age) w = (r, w') ∧
     queueDocs w' = filter (outlives cutoff) (queueDocs w) ∧
     deadDocs w' = deadDocs w ∧
     (reports_nested report →
      r = Resolved (length (queueDocs w) - length (queueDocs w'))%nat) ∧
     (reports_flat report → r = Pending) ∧
     (0 <= age →
      ∀ j, j ∈ queueDocs w → Job.deleted j = Some (clock env (ticks w)) →
           j ∈ queueDocs w' ∧ j ∉ queueDocs (cleanup env report this None w).2)) ∧
  (¬ dated cutoff →
   cleanup env report this (Some age) w
   = (Rejected (Wrapped (Thrown CastError)), tick w)).
Proof.
  intros cutoff.
  assert (clock env (ticks w) + age * -1 * 1000 = cutoff) as Hcut by (unfold cutoff; lia).
  split; intros Hd; rewrite cleanup_eq; cbv zeta; rewrite Hcut;
    [rewrite (new_Date_dated _ Hd)|by rewrite (new_Date_undated _ Hd)].
  cbn [Delete.castable].
  set (f := Delete.deleted_lt _).
  assert (filter (λ j, Delete.matches f j ≠ true) (queueDocs w)
          = filter (outlives cutoff) (queueDocs w)) as Hkept.
  { apply list_filter_iff. intros j. unfold f, outlives; simpl.
    destruct (Job.deleted j) as [t|]; [|done].
    rewrite Z.ltb_lt. split; lia. }
  pose proof (gone_and_kept (λ j, Delete.matches f j = true) (queueDocs w)) as Hlen.
  cbv beta in Hlen. rewrite Hkept in Hlen.
  assert (0 <= age →
          ∀ j, j ∈ queueDocs w → Job.deleted j = Some (clock env (ticks w)) →
               j ∈ filter (outlives cutoff) (queueDocs w) ∧
               j ∉ queueDocs (cleanup env report this None w).2) as Hedge.
  { intros Hage j Hin Hdel. split.
    - apply list_elem_of_filter. split; [|done]. unfold outlives. rewrite Hdel.
      unfold cutoff. lia.
    - rewrite cleanup_eq. cbv zeta. cbn [Delete.castable].
      assert (j ∉ filter (λ j, Delete.matches Delete.deleted_ne_null j ≠ true)
                    (queueDocs w)) as Hout.
      { intros [Hk _]%list_elem_of_filter. apply Hk. simpl.
        apply bool_decide_eq_true. by rewrite Hdel. }
      by destruct (report _). }
  rewrite Hkept. subst f.
  destruct (report _) eqn:Hr; eexists _, _; (split; [done|]);
    cbn [queueDocs deadDocs];
    (split_and!; [done|done| | |done]); intros Hreport;
    rewrite Hreport in Hr; try done.
  injection Hr as <-. f_equal. simpl in Hlen |- *. lia.
Qed.

Lemma filter_all_gone (l : list Job.t) :
  filter (λ j, Delete.matches Delete.all j ≠ true) l = [] ∧
  filter (λ j, Delete.matches Delete.all j = true) l = l.
Proof.
  split.
  - induction l as [|a l IH]; [done|]. by rewrite filter_cons_False by (by intros H).
  - induction l as [|a l IH]; [done|]. rewrite filter_cons_True by done. by rewrite IH.
Qed.

Lemma deleteMany_all m w :
  deleteMany report m Delete.all w
  = (Resolved (report (length (docs m w))), set_docs m [] w).
Proof.
  unfold deleteMany. cbn [Delete.castable].
  destruct (filter_all_gone (docs m w)) as [-> ->]. done.
Qed.

(** X17: cleanupDead.  Without a dead queue it resolves with 0 and does
    nothing at all; with one it removes every record of the dead queue,
    leaves the queue as it is and, with a store that hands back its count
    at [result.n], resolves with the number of records the dead queue
    held. *)
Theorem cleanupDead_empties_dead_queue this w :
  (deadQueue this = None → cleanupDead report this w = (Resolved 0%nat, w)) ∧
  (is_Some (deadQueue this) →
   ∃ r w', cleanupDead report this w = (r, w') ∧
           deadDocs w' = [] ∧ queueDocs w' = queueDocs w ∧
           (reports_nested report → r = Resolved (length (deadDocs w)))).
Proof.
  unfold cleanupDead. split.
  - by intros ->.
  - intros [dq ->]. unfold and_then_wrap. rewrite deleteMany_all. simpl.
    destruct (report _) eqn:Hr; eexists _, _; (split; [done|]); simpl;
      (split_and!; [done..|]); intros Hnested; rewrite Hnested in Hr; try done.
    by injection Hr as <-.
Qed.

(** X18: reset removes every record of the queue, whatever the store
    hands back, and, when a dead queue is set and the store has handed
    back something for the queue, every record of the dead queue; without
    a dead queue the dead collection is left alone.  With a store that
    hands back its counts at [result.n] reset resolves with the number of
    records removed; with a store that hands them back at [n] it never
    settles.  A peek after it, and a checkout with a visibility that gives
    a date, find nothing. *)
Theorem reset_empties_the_queues this w :
  ∃ r w', reset report this w = (r, w') ∧
    queueDocs w' = [] ∧
    (is_Some (deadQueue this) → report (length (queueDocs w)) ≠ Delete.none →
     deadDocs w' = []) ∧
    (deadQueue this = None → deadDocs w' = deadDocs w) ∧
    (reports_nested report →
     r = Resolved (length (queueDocs w)
                   + match deadQueue this with
                     | Some _ => length (deadDocs w)
                     | None => 0
                     end)%nat) ∧
    (reports_flat report → r = Pending) ∧
    (peek env this w').1 = Resolved Null ∧
    (∀ visibility, dated (checkout_lease env this visibility w') →
                   (checkout env this visibility w').1 = Resolved Null).
Proof.
  assert (∀ w0, queueDocs w0 = [] →
                (peek env this w0).1 = Resolved Null ∧
                (∀ visibility, dated (checkout_lease env this visibility w0) →
                               (checkout env this visibility w0).1 = Resolved Null))
    as Hafter.
  { intros w0 Hq. split.
    - rewrite peek_eq, Hq. done.
    - intros visibility Hd. rewrite checkout_finds_nothing; [done| |done].
      intros j Hj. rewrite Hq in Hj. by apply elem_of_nil in Hj. }
  unfold reset, and_then. rewrite deleteMany_all. cbn [docs set_docs].
  destruct (report (length (queueDocs w))) as [|n|n] eqn:Hr.
  - eexists _, _. split; [done|]. cbn [queueDocs deadDocs].
    split_and!; [done|done|done| | |by apply Hafter|by apply Hafter];
      intros Hreport; by rewrite Hreport in Hr.
  - destruct (deadQueue this) as [dq|].
    + rewrite deleteMany_all. cbn [docs set_docs deadDocs queueDocs].
      destruct (report (length (deadDocs w))) as [|m|m] eqn:Hr2;
        eexists _, _; (split; [done|]); cbn [queueDocs deadDocs];
        (split_and!; [done|done|done| | |by apply Hafter|by apply Hafter]);
        intros Hreport; rewrite Hreport in Hr, Hr2; done.
    + eexists _, _. split; [done|]. cbn [queueDocs deadDocs].
      split_and!; [done|by intros [? ?]|done| | |by apply Hafter|by apply Hafter];
        intros Hreport; rewrite Hreport in Hr; done.
  - destruct (deadQueue this) as [dq|].
    + rewrite deleteMany_all. cbn [docs set_docs deadDocs queueDocs].
      destruct (report (length (deadDocs w))) as [|m|m] eqn:Hr2;
        eexists _, _; (split; [done|]); cbn [queueDocs deadDocs];
        (split_and!; [done|done|done| | |by apply Hafter|by apply Hafter]);
        intros Hreport; rewrite Hreport in Hr, Hr2; try done.
      injection Hr as <-. by injection Hr2 as <-.
    + eexists _, _. split; [done|]. cbn [queueDocs deadDocs].
      split_and!; [done|by intros [? ?]|done| | |by apply Hafter|by apply Hafter];
        intros Hreport; rewrite Hreport in Hr; [|done].
      injection Hr as <-. by rewrite Nat.add_0_r.
Qed.

(** X19: the counts are read at [result.n].  With a store that hands
    back its count at [n], with no [result] around it, cleanup (without an
    age, or with one that gives a date), reset and, with a dead queue,
    cleanupDead remove what they remove and then never settle; with a
    store that hands back nothing they reject with "MongoDB result was
    empty.". *)
Theorem maintenance_reads_result_n this age w :
  (∀ a, age = Some a → dated (clock env (ticks w) - a * 1000)) →
  (reports_flat report →
   (cleanup env report this age w).1 = Pending ∧
   (reset report this w).1 = Pending ∧
   queueDocs (reset report this w).2 = [] ∧
   (is_Some (deadQueue this) →
    (cleanupDead report this w).1 = Pending ∧
    deadDocs (cleanupDead report this w).2 = [])) ∧
  ((∀ n, report n = Delete.none) →
   (cleanup env report this age w).1 = Rejected empty_result ∧
   (reset report this w).1 = Rejected empty_result ∧
   (is_Some (deadQueue this) →
    (cleanupDead report this w).1 = Rejected empty_result)).
Proof.
  intros Hage.
  assert (Delete.castable
            match age with
            | Some a => Delete.deleted_lt
                          (JS.new_Date (clock env (ticks w) + a * -1 * 1000))
            | None => Delete.deleted_ne_null
            end = true) as Hcast.
  { destruct age as [a|]; [|done].
    rewrite new_Date_dated; [done|].
    replace (clock env (ticks w) + a * -1 * 1000) with (clock env (ticks w) - a * 1000)
      by lia.
    by apply Hage. }
  split; intros Hreport.
  - split_and!.
    + rewrite cleanup_eq. cbv zeta. by rewrite Hcast, Hreport.
    + unfold reset, and_then. rewrite deleteMany_all, Hreport.
      destruct (deadQueue this); [|done]. by rewrite deleteMany_all, Hreport.
    + unfold reset, and_then. rewrite deleteMany_all, Hreport.
      destruct (deadQueue this); [|done]. by rewrite deleteMany_all, Hreport.
    + intros [dq Hdq]. unfold cleanupDead, and_then_wrap.
      by rewrite Hdq, deleteMany_all, Hreport.
  - split_and!.
    + rewrite cleanup_eq. cbv zeta. by rewrite Hcast, Hreport.
    + unfold reset, and_then. by rewrite deleteMany_all, Hreport.
    + intros [dq Hdq]. unfold cleanupDead, and_then_wrap.
      by rewrite Hdq, deleteMany_all, Hreport.
Qed.

End MaintenanceProperties.

(** ** get and the constructor *)

Section Get.

Context (env : Env).

Import JobQueue.

Lemma id_le_total : Total id_le.
Proof. intros a b. unfold id_le. lia. Qed.

Lemma id_le_trans : Transitive id_le.
Proof. intros a b c. unfold id_le. lia. Qed.

Lemma toObjects_plain js w :
  JobQueueHelper.toObjects env (Plain <$> js) w = (Resolved (Plain <$> js), w).
Proof.
  revert w. induction js as [|j js IH]; intros w; [done|].
  rewrite fmap_cons. cbn [JobQueueHelper.toObjects]. unfold and_then.
  by rewrite toObject_eq, IH.
Qed.

(** X20: get changes nothing and resolves with the records its filter
    matches, each once, in ascending order of [_id]; a filter that is no
    object matches every record. *)
Theorem get_lists_in_id_order this (query : option (Job.t → bool)) w :
  ∃ js, get env this query w
        = (Resolved (Many (Plain <$> js)), w) ∧
        StronglySorted id_le js ∧
        js ≡ₚ filter (λ j, default (λ _, true) query j = true) (queueDocs w) ∧
        (query = None → js ≡ₚ queueDocs w).
Proof.
  unfold get, and_then, find; simpl.
  set (found := filter _ (queueDocs w)).
  exists (merge_sort id_le found). split_and!.
  - unfold JobQueueHelper.prep.
    destruct (Options.raw (options this)); simpl; [|done].
    unfold and_then. by rewrite toObjects_plain.
  - apply (@StronglySorted_merge_sort _ id_le _ id_le_trans id_le_total).
  - apply merge_sort_Permutation.
  - intros ->. rewrite merge_sort_Permutation. unfold found; simpl.
    clear found. induction (queueDocs w) as [|a l IH]; [done|].
    rewrite filter_cons_True by done. by rewrite IH.
Qed.

Lemma buildModel_registered mg name :
  existsb (String.eqb name) (models mg) = true ↔ name ∈ models mg.
Proof.
  rewrite existsb_exists. split.
  - intros (x & Hin & ->%String.eqb_eq). by apply list_elem_of_In.
  - intros Hin. exists name. split; [by apply list_elem_of_In|apply String.eqb_refl].
Qed.

(** X21: the constructor throws when the mongoose instance is missing,
    when the name is empty, and when a model of that name is registered on
    the instance already, in that order; otherwise it builds a queue of
    that name and registers the name on the instance, so that a second
    queue of the same name on that instance cannot be built.  [exports] is
    the constructor. *)
Theorem constructor_guards mongoose name opts :
  (mongoose = None →
   constructor mongoose name opts
   = inl (new_Error "mongoose-jobqueue: provide a mongoose instance")) ∧
  (is_Some mongoose → name = "" →
   constructor mongoose name opts
   = inl (new_Error "mongoose-jobqueue: provide a queue name")) ∧
  (∀ mg, mongoose = Some mg → name ≠ "" → name ∈ models mg →
         constructor mongoose name opts = inl (Thrown OverwriteModelError)) ∧
  (∀ mg, mongoose = Some mg → name ≠ "" → name ∉ models mg →
         ∃ q, constructor mongoose name opts = inr q ∧
              JobQueue.name q = name ∧ queue q = name ∧
              models (JobQueue.mongoose q) = name :: models mg ∧
              ∀ opts', constructor (Some (JobQueue.mongoose q)) name opts'
                       = inl (Thrown OverwriteModelError)) ∧
  exports mongoose name opts = constructor mongoose name opts.
Proof.
  assert (∀ mg opts0, name ≠ "" → name ∈ models mg →
            constructor (Some mg) name opts0 = inl (Thrown OverwriteModelError)) as Hover.
  { intros mg opts0 Hname Hin. unfold constructor, JobQueueHelper.buildModel.
    destruct (String.eqb_spec name ""); [done|]. cbv zeta.
    apply buildModel_registered in Hin. by rewrite Hin. }
  split_and!; [by intros ->| | | |done].
  - by intros [m ->] ->.
  - intros mg -> Hname Hin. by apply Hover.
  - intros mg -> Hname Hin. unfold constructor at 1, JobQueueHelper.buildModel.
    destruct (String.eqb_spec name ""); [done|]. cbv zeta.
    destruct (existsb _ _) eqn:Hex; [by apply buildModel_registered in Hex|].
    cbn [Options.deadQueue Options.defaults JS.truthy_str].
    eexists. split; [done|]. cbn [JobQueue.name queue JobQueue.mongoose models].
    split_and!; [done..|]. intros opts'. apply Hover; [done|]. by left.
Qed.

End Get.

(** ** The further properties at work on the example worlds *)

Lemma peek_then_checkout_witness :
  JobQueue.deadQueue Ex.plain = None ∧
  JobQueue.peek Ex.env Ex.plain Ex.unordered = (Resolved (One (Plain Ex.one)), Scene.peeked) ∧
  clock Ex.env (ticks Ex.unordered) <= clock Ex.env (ticks Scene.peeked) ∧
  dated (checkout_lease Ex.env Ex.plain None Scene.peeked) ∧
  ∃ job w2,
    JobQueue.checkout Ex.env Ex.plain None Scene.peeked = (Resolved (One (Plain job)), w2) ∧
    Job._id job <= Job._id Ex.one.
Proof.
  assert (clock Ex.env (ticks Ex.unordered) <= clock Ex.env (ticks Scene.peeked)) as Hclock
    by (vm_compute; discriminate).
  assert (dated (checkout_lease Ex.env Ex.plain None Scene.peeked)) as Hd
    by (vm_compute; discriminate).
  split; [reflexivity|]. split; [reflexivity|]. split; [exact Hclock|].
  split; [exact Hd|].
  destruct (peek_then_checkout Ex.env Ex.plain None Ex.unordered Ex.one Scene.peeked
              eq_refl eq_refl Hclock Hd) as (job & w2 & Hco & Hid & _).
  by exists job, w2.
Defined.

Lemma checkout_nothing_eligible_witness :
  (∀ j, j ∈ queueDocs Scene.quiet → ¬ eligible (clock Ex.env (ticks Scene.quiet)) j) ∧
  dated (checkout_lease Ex.env Ex.plain None Scene.quiet) ∧
  JobQueue.checkout Ex.env Ex.plain None Scene.quiet
  = (Resolved Null, mkWorld (queueDocs Scene.quiet) [] 12 2 3) ∧
  ¬ dated (checkout_lease Ex.env Ex.plain (Some 10000000000000) Scene.quiet) ∧
  JobQueue.checkout Ex.env Ex.plain (Some 10000000000000) Scene.quiet
  = (Rejected (Thrown CastError), mkWorld (queueDocs Scene.quiet) [] 12 2 3).
Proof.
  assert (∀ j, j ∈ queueDocs Scene.quiet →
               ¬ eligible (clock Ex.env (ticks Scene.quiet)) j) as Hyp.
  { intros j Hin [Hlive Hvis]. simpl in Hin.
    apply elem_of_cons in Hin as [->|Hin]; [discriminate|].
    apply elem_of_cons in Hin as [->|Hin]; [|by apply elem_of_nil in Hin].
    vm_compute in Hvis. by apply Hvis. }
  assert (dated (checkout_lease Ex.env Ex.plain None Scene.quiet)) as Hd
    by (vm_compute; discriminate).
  assert (¬ dated (checkout_lease Ex.env Ex.plain (Some 10000000000000) Scene.quiet))
    as Hbeyond by (vm_compute; intros H; apply H; reflexivity).
  split; [exact Hyp|]. split; [exact Hd|]. split.
  - exact (proj1 (checkout_nothing_eligible Ex.env Ex.plain None Scene.quiet Hyp) Hd).
  - split; [exact Hbeyond|].
    exact (proj2 (checkout_nothing_eligible Ex.env Ex.plain (Some 10000000000000)
                    Scene.quiet Hyp) Hbeyond).
Defined.




Lemma checkout_accounts_for_every_job_witness :
  JobQueue.checkout Ex.env Ex.with_dead None Ex.worn_out
  = (Resolved (One (Plain Scene.served_two)), Scene.after_eviction) ∧
  balance Scene.after_eviction = balance Ex.worn_out ∧
  length (queueDocs Scene.after_eviction) = length (queueDocs Ex.worn_out).
Proof.
  assert (JobQueue.checkout Ex.env Ex.with_dead None Ex.worn_out
          = (Resolved (One (Plain Scene.served_two)), Scene.after_eviction)) as Hco
    by (vm_compute; reflexivity).
  split; [exact Hco|].
  destruct (checkout_accounts_for_every_job Ex.env Ex.with_dead None Ex.worn_out _ _ Hco)
    as (_ & Hr & Hlen).
  split; [exact (Hr _ eq_refl)|exact Hlen].
Defined.

Lemma checkout_then_acknowledge_witness :
  JobQueue.checkout Ex.env Ex.plain None Ex.unordered
  = (Resolved (One (Plain Scene.claimed_one)), Scene.one_out) ∧
  (holders (Job.ack Scene.claimed_one) (queueDocs Scene.one_out) ≤ 1)%nat ∧
  clock Ex.env (ticks Scene.one_out) < Job.visible Scene.claimed_one ∧
  ∃ i d w2,
    queueDocs Scene.one_out !! i = Some Scene.claimed_one ∧
    JobQueue.acknowledge Ex.env Ex.plain (Job.ack Scene.claimed_one) Scene.one_out
    = (Resolved (One (Plain (acknowledged Scene.claimed_one d))), w2).
Proof.
  assert (JobQueue.checkout Ex.env Ex.plain None Ex.unordered
          = (Resolved (One (Plain Scene.claimed_one)), Scene.one_out)) as Hco
    by (vm_compute; reflexivity).
  assert (holders (Job.ack Scene.claimed_one) (queueDocs Scene.one_out) ≤ 1)%nat as Hone
    by (vm_compute; lia).
  assert (clock Ex.env (ticks Scene.one_out) < Job.visible Scene.claimed_one) as Hopen
    by (vm_compute; reflexivity).
  split; [exact Hco|]. split; [exact Hone|]. split; [exact Hopen|].
  destruct (checkout_then_acknowledge Ex.env Ex.plain None Ex.unordered
              Scene.claimed_one Scene.one_out Hco Hone (λ _, Hopen))
    as (i & d & w2 & Hi & Hack & _).
  by exists i, d, w2.
Defined.

Lemma lease_excludes_next_checkout_witness :
  JobQueue.deadQueue Ex.plain = None ∧
  JobQueue.checkout Ex.env Ex.plain None Ex.unordered
  = (Resolved (One (Plain Scene.claimed_one)), Scene.one_out) ∧
  clock Ex.env (ticks Scene.one_out) < Job.visible Scene.claimed_one ∧
  ∃ i, queueDocs Scene.one_out !! i = Some Scene.claimed_one ∧
       queueDocs (JobQueue.checkout Ex.env Ex.plain None Scene.one_out).2 !! i
       = Some Scene.claimed_one.
Proof.
  assert (JobQueue.checkout Ex.env Ex.plain None Ex.unordered
          = (Resolved (One (Plain Scene.claimed_one)), Scene.one_out)) as Hco
    by (vm_compute; reflexivity).
  assert (clock Ex.env (ticks Scene.one_out) < Job.visible Scene.claimed_one) as Hopen
    by (vm_compute; reflexivity).
  split; [reflexivity|]. split; [exact Hco|]. split; [exact Hopen|].
  destruct (lease_excludes_next_checkout Ex.env Ex.plain None None Ex.unordered
              Scene.claimed_one Scene.one_out _ _ eq_refl Hco Hopen
              (surjective_pairing _))
    as (i & Hi & Hi2 & _).
  by exists i.
Defined.

Lemma elapsed_lease_witness :
  queueDocs Scene.lapsed !! 0%nat = Some Ex.held ∧
  Job.deleted Ex.held = None ∧
  Job.visible Ex.held <= clock Ex.env (ticks Scene.lapsed) ∧
  (holders (Some "c8a3cc58") (queueDocs Scene.lapsed) ≤ 1)%nat ∧
  dated (ping_lease Ex.env Ex.plain None Scene.lapsed) ∧
  (JobQueue.acknowledge Ex.env Ex.plain (Some "c8a3cc58") Scene.lapsed).1
  = Rejected not_found ∧
  (JobQueue.ping Ex.env Ex.plain (Some "c8a3cc58") None None JS.undefined Scene.lapsed).1
  = Resolved Null.
Proof.
  assert (Job.visible Ex.held <= clock Ex.env (ticks Scene.lapsed)) as Hvis
    by (vm_compute; discriminate).
  assert (holders (Some "c8a3cc58") (queueDocs Scene.lapsed) ≤ 1)%nat as Hone
    by (vm_compute; lia).
  assert (dated (ping_lease Ex.env Ex.plain None Scene.lapsed)) as Hd
    by (vm_compute; discriminate).
  split; [reflexivity|]. split; [reflexivity|]. split; [exact Hvis|].
  split; [exact Hone|]. split; [exact Hd|].
  exact (proj1 (proj2 (elapsed_lease Ex.env Ex.plain (Some "c8a3cc58") None None
                         JS.undefined Scene.lapsed 0%nat Ex.held
                         eq_refl eq_refl eq_refl Hvis Hone Hd)) eq_refl).
Defined.

Lemma cleanup_by_age_witness :
  dated (clock Ex.env (ticks Ex.acked) - 1 * 1000) ∧
  (∃ r w', JobQueue.cleanup Ex.env Delete.flat Ex.plain (Some 1) Ex.acked = (r, w') ∧
           queueDocs w' = [Ex.finished; Ex.two] ∧ r = Pending) ∧
  ¬ dated (clock Ex.env (ticks Ex.acked) - 10000000000000 * 1000) ∧
  JobQueue.cleanup Ex.env Delete.flat Ex.plain (Some 10000000000000) Ex.acked
  = (Rejected (Wrapped (Thrown CastError)), tick Ex.acked).
Proof.
  assert (dated (clock Ex.env (ticks Ex.acked) - 1 * 1000)) as Hd
    by (vm_compute; discriminate).
  assert (¬ dated (clock Ex.env (ticks Ex.acked) - 10000000000000 * 1000)) as Hbeyond
    by (vm_compute; intros H; apply H; reflexivity).
  split; [exact Hd|]. split.
  - destruct (proj1 (cleanup_by_age Ex.env Delete.flat Ex.plain 1 Ex.acked) Hd)
      as (r & w' & Hr & Hq & _ & _ & Hflat & _).
    exists r, w'. split; [exact Hr|]. split; [exact Hq|].
    apply Hflat. intros n. reflexivity.
  - split; [exact Hbeyond|].
    exact (proj2 (cleanup_by_age Ex.env Delete.flat Ex.plain 10000000000000 Ex.acked)
             Hbeyond).
Defined.

Lemma reset_empties_the_queues_witness :
  ∃ r w', JobQueue.reset Delete.flat Ex.with_dead Ex.evicted = (r, w') ∧
          queueDocs w' = [] ∧ deadDocs w' = [] ∧ r = Pending.
Proof.
  destruct (reset_empties_the_queues Ex.env Delete.flat Ex.with_dead Ex.evicted)
    as (r & w' & Hr & Hq & Hdead & _ & _ & Hflat & _).
  exists r, w'. split; [exact Hr|]. split; [exact Hq|]. split.
  - apply Hdead; [by eexists|discriminate].
  - apply Hflat. intros n. reflexivity.
Defined.

Lemma maintenance_reads_result_n_witness :
  (∀ a, Some 1 = Some a → dated (clock Ex.env (ticks Ex.acked) - a * 1000)) ∧
  reports_flat Delete.flat ∧
  (JobQueue.cleanup Ex.env Delete.flat Ex.plain (Some 1) Ex.acked).1 = Pending.
Proof.
  assert (∀ a, Some 1 = Some a → dated (clock Ex.env (ticks Ex.acked) - a * 1000))
    as Hage by (intros a [= <-]; vm_compute; discriminate).
  assert (reports_flat Delete.flat) as Hflat by (intros n; reflexivity).
  split; [exact Hage|]. split; [exact Hflat|].
  exact (proj1 (proj1 (maintenance_reads_result_n Ex.env Delete.flat Ex.plain (Some 1)
                         Ex.acked Hage) Hflat)).
Defined.

Lemma constructor_guards_witness :
  ∃ q, JobQueue.constructor (Some JobQueue.mongoose_instance) "jobs" Opts.empty = inr q ∧
       models (JobQueue.mongoose q) = ["jobs"] ∧
       JobQueue.constructor (Some (JobQueue.mongoose q)) "jobs" Opts.empty
       = inl (Thrown OverwriteModelError).
Proof.
  destruct (proj1 (proj2 (proj2 (proj2
              (constructor_guards (Some JobQueue.mongoose_instance) "jobs" Opts.empty))))
              JobQueue.mongoose_instance eq_refl)
    as (q & Hq & _ & _ & Hmodels & Hagain).
  - discriminate.
  - apply not_elem_of_nil.
  - exists q. split; [exact Hq|]. split; [exact Hmodels|]. apply Hagain.
Defined.

Lemma fresh_token_has_one_holder_witness :
  JobQueue.claim Ex.env 30 Ex.unordered
  = (Resolved (Some Scene.claimed_one), Scene.one_out) ∧
  (∀ j, j ∈ queueDocs Ex.unordered → Job.ack j ≠ Job.ack Scene.claimed_one) ∧
  holders (Job.ack Scene.claimed_one) (queueDocs Scene.one_out) = 1%nat.
Proof.
  assert (JobQueue.claim Ex.env 30 Ex.unordered
          = (Resolved (Some Scene.claimed_one), Scene.one_out)) as Hclaim
    by (vm_compute; reflexivity).
  assert (∀ j, j ∈ queueDocs Ex.unordered → Job.ack j ≠ Job.ack Scene.claimed_one)
    as Hfresh.
  { intros j Hin. simpl in Hin.
    apply elem_of_cons in Hin as [->|Hin]; [discriminate|].
    apply elem_of_cons in Hin as [->|Hin]; [discriminate|].
    by apply elem_of_nil in Hin. }
  split; [exact Hclaim|]. split; [exact Hfresh|].
  exact (fresh_token_has_one_holder Ex.env 30 Ex.unordered Scene.claimed_one
           Scene.one_out Hclaim Hfresh).
Defined.
